(** * Quantum key distribution demo (qkd_demo.py): the classical BB84 logic

    A shallow embedding of [src/qkd_demo.py]: the text codec
    ([string_to_bits], [bits_to_string]), the XOR cipher ([xor_bits]), the
    circuit builder ([bb84_circuit]) and the driver ([main]) with its key
    sifting, followed by the properties of the specification.

    Python integers are [Z]; sizes, and the indices produced by [range], are
    [nat]; a Python [str] is the list of its code points; a raised exception
    is the [Raise] branch of [result]. *)

From Stdlib Require Import ZArith NArith List Bool Lia Ascii Decimal Sorted.
From Stdlib Require String.
Import ListNotations String.StringSyntax.
Open Scope string_scope.

(** ** Python values and primitives *)

Module Py.

(** The exception classes the program can raise. *)
Inductive exn : Set :=
| ZeroDivisionError
| IndexError
| ValueError
| OverflowError
| TypeError
| KeyError.

Inductive result (A : Type) : Type :=
| Ok (a : A)
| Raise (e : exn).

Arguments Ok {A} a.
Arguments Raise {A} e.

Definition bind {A B} (r : result A) (k : A -> result B) : result B :=
  match r with
  | Ok a => k a
  | Raise e => Raise e
  end.

(** A [str]: its code points, each below [0x110000]. *)
Definition str : Set := list N.

Definition ch (a : ascii) : N := N_of_ascii a.

Definition lit (s : String.string) : str :=
  List.map ch (String.list_ascii_of_string s).

(** [l[i]] for an index [i] coming from a [range]: never negative. *)
Definition getitem {A} (l : list A) (i : nat) : result A :=
  match nth_error l i with
  | Some x => Ok x
  | None => Raise IndexError
  end.

(** [a % b] on non-negative operands. *)
Definition mod_ (a b : nat) : result nat :=
  match b with
  | O => Raise ZeroDivisionError
  | S _ => Ok (Nat.modulo a b)
  end.

(** [l[a:b]] for [0 <= a <= b]: clipped at the end of [l], never raises. *)
Definition slice {A} (l : list A) (a b : nat) : list A :=
  firstn (b - a) (skipn a l).

(** [l[a:]]. *)
Definition slice_from {A} (l : list A) (a : nat) : list A := skipn a l.

(** [range(n)]. *)
Definition range (n : nat) : list nat := seq 0 n.

(** [for x in l: s = body(s, x)], stopping at the first exception. *)
Fixpoint for_each {A S} (body : S -> A -> result S) (l : list A) (s : S)
  : result S :=
  match l with
  | [] => Ok s
  | x :: l' => bind (body s x) (for_each body l')
  end.

(** [[f(x) for x in l]], stopping at the first exception. *)
Fixpoint comprehension {A B} (f : A -> result B) (l : list A)
  : result (list B) :=
  match l with
  | [] => Ok []
  | x :: l' =>
      bind (f x) (fun y => bind (comprehension f l') (fun ys => Ok (y :: ys)))
  end.

(** [[f(x) for x in l if c(x)]]: the condition is evaluated first. *)
Fixpoint comprehension_if {A B} (c : A -> result bool) (f : A -> result B)
  (l : list A) : result (list B) :=
  match l with
  | [] => Ok []
  | x :: l' =>
      bind (c x) (fun keep =>
        if keep
        then bind (f x) (fun y =>
               bind (comprehension_if c f l') (fun ys => Ok (y :: ys)))
        else comprehension_if c f l')
  end.

(** Truth value of an integer: [not z] is [z == 0]. *)
Definition not_ (z : Z) : bool := Z.eqb z 0.

(** [x in l] for a list of indices. *)
Definition contains (x : nat) (l : list nat) : bool := existsb (Nat.eqb x) l.

(** [ord(c)]. *)
Definition ord (c : N) : N := c.

(** Binary digits of a positive number, most significant first. *)
Fixpoint bin_pos (p : positive) (acc : str) : str :=
  match p with
  | xH => ch "1" :: acc
  | xO q => bin_pos q (ch "0" :: acc)
  | xI q => bin_pos q (ch "1" :: acc)
  end.

(** [bin(n)] for [n >= 0]: the prefix [0b] and the binary digits. *)
Definition bin (n : N) : str :=
  ch "0" :: ch "b" ::
  match n with
  | N0 => [ch "0"]
  | Npos p => bin_pos p []
  end.

(** [int(c)] for a one-character string over ASCII: the value of a decimal
    digit, [ValueError] for any other character. *)
Definition int_of_char (c : N) : result Z :=
  if (N.leb 48 c && N.leb c 57)%bool
  then Ok (Z.of_N c - 48)%Z
  else Raise ValueError.

Fixpoint str_uint (d : Decimal.uint) : str :=
  match d with
  | Nil => []
  | D0 d' => ch "0" :: str_uint d'
  | D1 d' => ch "1" :: str_uint d'
  | D2 d' => ch "2" :: str_uint d'
  | D3 d' => ch "3" :: str_uint d'
  | D4 d' => ch "4" :: str_uint d'
  | D5 d' => ch "5" :: str_uint d'
  | D6 d' => ch "6" :: str_uint d'
  | D7 d' => ch "7" :: str_uint d'
  | D8 d' => ch "8" :: str_uint d'
  | D9 d' => ch "9" :: str_uint d'
  end.

(** [str(z)] for an integer: decimal digits, with [-] when negative. *)
Definition str_of_int (z : Z) : str :=
  match Z.to_int z with
  | Decimal.Pos d => str_uint d
  | Decimal.Neg d => ch "-" :: str_uint d
  end.

(** [''.join(l)]. *)
Definition join (l : list str) : str := List.concat l.

Fixpoint parse_bin (s : str) (acc : Z) : result Z :=
  match s with
  | [] => Ok acc
  | c :: s' =>
      if N.eqb c (ch "0") then parse_bin s' (2 * acc)%Z
      else if N.eqb c (ch "1") then parse_bin s' (2 * acc + 1)%Z
      else Raise ValueError
  end.

(** [int(s, 2)] on a string made of decimal digits and [-] signs (what
    joining [str] of integers gives): an optional sign followed by one or
    more binary digits, anything else is a [ValueError]. *)
Definition int_base2 (s : str) : result Z :=
  match s with
  | [] => Raise ValueError
  | c :: s' =>
      if N.eqb c (ch "-")
      then match s' with
           | [] => Raise ValueError
           | _ => bind (parse_bin s' 0) (fun v => Ok (- v)%Z)
           end
      else parse_bin s 0
  end.

(** [chr(v)]: [OverflowError] outside the C [int] range, [ValueError]
    outside [range(0x110000)]. *)
Definition chr (v : Z) : result N :=
  if (Z.ltb v (- 2147483648) || Z.ltb 2147483647 v)%bool
  then Raise OverflowError
  else if (Z.leb 0 v && Z.ltb v 1114112)%bool
       then Ok (Z.to_N v)
       else Raise ValueError.

End Py.

Import Py.

Declare Scope py_scope.
Delimit Scope py_scope with py.
Notation "x <- e ;; k" := (Py.bind e (fun x => k))
  (at level 61, e at next level, right associativity) : py_scope.
Open Scope py_scope.

(** ** The XOR cipher and the text codec *)

(** [xor_bits(bits, key)], lines 150-154. *)
Definition xor_bits (bits key : list Z) : result (list Z) :=
  for_each
    (fun xor i =>
       b <- getitem bits i ;;
       m <- mod_ i (length key) ;;
       k <- getitem key m ;;
       Ok (xor ++ [Z.lxor b k]))
    (range (length bits)) [].

(** [string_to_bits(string)], lines 157-163. *)
Definition string_to_bits (string : str) : result (list Z) :=
  for_each
    (fun result char =>
       let bits := slice_from (bin (ord char)) 2 in
       let bits := slice_from (lit "00000000") (length bits) ++ bits in
       ds <- comprehension int_of_char bits ;;
       Ok (result ++ ds))
    string [].

(** [bits_to_string(bits)], lines 165-170.  [int(len(bits) / 8)] is the
    truncated quotient. *)
Definition bits_to_string (bits : list Z) : result str :=
  chars <-
    for_each
      (fun chars b =>
         let byte := slice bits (b * 8) ((b + 1) * 8) in
         v <- int_base2 (join (List.map str_of_int byte)) ;;
         c <- chr v ;;
         Ok (chars ++ [c]))
      (range (length bits / 8)) [] ;;
  Ok chars.

(** ** Circuits

    A circuit is kept as the sequence of operations in the order in which the
    program appends them; a qubit [cirq.LineQubit(i)] is its index [i], which
    is also the key of its measurement. *)

Module cirq.

Inductive op : Set :=
| X (q : nat)
| H (q : nat)
| measure (q : nat).

Definition Circuit : Set := list op.

Definition LineQubit (i : nat) : nat := i.

(** [cirq.measure_each] applied to the qubits. *)
Definition measure_each (qubits : list nat) : list op :=
  List.map measure qubits.

(** Whether the circuit has a measurement at all, and whether it has the
    measurement with key [i]. *)
Definition has_measurements (circuit : Circuit) : bool :=
  existsb (fun o => match o with measure _ => true | _ => false end) circuit.

Definition has_key (circuit : Circuit) (i : nat) : bool :=
  existsb (fun o => match o with measure q => Nat.eqb q i | _ => false end)
    circuit.

(** The result of a run.  [measurements[key]] is an array with one row per
    repetition; of that array the program takes [int(..)], which is its only
    value when it has exactly one and a [TypeError] otherwise. *)
Record Result : Set := mkResult {
  ran : Circuit;
  rows : Z;
  only_value : nat -> bool
}.

End cirq.

(** [build_b92_encoder(circuit, qubits, bits, basis)], lines 184-190. *)
Definition build_b92_encoder (circuit : cirq.Circuit) (qubits : list nat)
  (bits basis : list Z) : result cirq.Circuit :=
  for_each
    (fun circuit i =>
       b <- getitem bits i ;;
       circuit <- (if Z.eqb b 1
                   then q <- getitem qubits i ;; Ok (circuit ++ [cirq.X q])
                   else Ok circuit) ;;
       s <- getitem basis i ;;
       if Z.eqb s 1
       then q <- getitem qubits i ;; Ok (circuit ++ [cirq.H q])
       else Ok circuit)
    (range (length bits)) circuit.

(** [build_b92_measurement(circuit, qubits, basis)], lines 192-197. *)
Definition build_b92_measurement (circuit : cirq.Circuit) (qubits : list nat)
  (basis : list Z) : result cirq.Circuit :=
  circuit <-
    for_each
      (fun circuit i =>
         s <- getitem basis i ;;
         if Z.eqb s 1
         then q <- getitem qubits i ;; Ok (circuit ++ [cirq.H q])
         else Ok circuit)
      (range (length basis)) circuit ;;
  Ok (circuit ++ cirq.measure_each qubits).

(** [bb84_circuit(a_bits, a_basis, b_basis)], lines 172-182. *)
Definition bb84_circuit (a_bits a_basis b_basis : list Z)
  : result cirq.Circuit :=
  qubits <- comprehension (fun i => Ok (cirq.LineQubit i))
              (range (length a_bits)) ;;
  let circuit := [] in
  circuit <- build_b92_encoder circuit qubits a_bits a_basis ;;
  circuit <- build_b92_measurement circuit qubits b_basis ;;
  Ok circuit.

(** ** Key sifting, lines 124-127 of [main]

    The comprehensions that compute [good_bits], [a_key] and [b_key]. *)
Definition sift (a_bits a_basis b_bits b_basis : list Z)
  : result (list nat * list Z * list Z) :=
  good_bits <-
    comprehension_if
      (fun i =>
         a <- getitem a_basis i ;;
         b <- getitem b_basis i ;;
         Ok (not_ (Z.lxor a b)))
      (fun i => Ok i)
      (range (length a_basis)) ;;
  a_key <-
    comprehension_if (fun i => Ok (contains i good_bits))
      (fun i => getitem a_bits i) (range (length a_basis)) ;;
  b_key <-
    comprehension_if (fun i => Ok (contains i good_bits))
      (fun i => getitem b_bits i) (range (length b_basis)) ;;
  Ok (good_bits, a_key, b_key).

(** [a_key == b_key] on lists of integers. *)
Fixpoint list_eq (l1 l2 : list Z) : bool :=
  match l1, l2 with
  | [], [] => true
  | x :: l1', y :: l2' => Z.eqb x y && list_eq l1' l2'
  | _, _ => false
  end.

(** ** The driver

    What the program does to the outside is kept in a [World]: how many
    arrays it has drawn from [numpy.random.randint], the circuits it has
    handed to [cirq.Simulator().run], and the lines it has printed. *)

Inductive line : Set :=
| InputMessage (msg : str)
| BitMessage (bits : list Z)
| Text (s : String.string)
| Diagram (circuit : cirq.Circuit)
| EncryptedBits (bits : list Z)
| DecryptedBits (bits : list Z)
| ReceivedMessage (msg : str).

Record World : Set := mkWorld {
  rng_calls : nat;
  sim_runs : list (cirq.Circuit * Z);
  stdout : list line
}.

Definition Prog (A : Type) : Type := World -> result A * World.

Definition ret {A} (a : A) : Prog A := fun w => (Ok a, w).

Definition bindP {A B} (p : Prog A) (k : A -> Prog B) : Prog B :=
  fun w =>
    match p w with
    | (Ok a, w') => k a w'
    | (Raise e, w') => (Raise e, w')
    end.

Definition lift {A} (r : result A) : Prog A := fun w => (r, w).

(** [print(..)].  The standard output is taken to encode every line it is
    given: with the default encoding that is every string without a
    surrogate code point. *)
Definition print (l : line) : Prog unit :=
  fun w => (Ok tt, mkWorld (rng_calls w) (sim_runs w) (stdout w ++ [l])).

Notation "x <<- e ;; k" := (bindP e (fun x => k))
  (at level 61, e at next level, right associativity) : py_scope.
Notation "e ;;; k" := (bindP e (fun _ => k))
  (at level 61, right associativity) : py_scope.

Definition interference_warning : String.string :=
  "Interference detected! Keys do not match!\n Continuing anyway!".

Section Driver.

(** The two external sources of data.  [randint_out k j] is element [j] of
    the [k]-th array returned by [randint(2, size=..)], a 0/1 value.
    [measured n circuit repetitions i] is the 0/1 value of
    the measurement with key [i] in the result of the [n]-th call of
    [cirq.Simulator().run(circuit, repetitions=repetitions)], when that call
    is made with one repetition.  [key_size] is the size of the arrays, a
    [nat]. *)
Variable randint_out : nat -> nat -> bool.
Variable measured : nat -> cirq.Circuit -> Z -> nat -> bool.

(** [randint(2, size=size)]: a fresh array of [size] values in 0..1. *)
Definition randint (size : nat) : Prog (list Z) :=
  fun w =>
    (Ok (List.map (fun j => Z.b2z (randint_out (rng_calls w) j))
           (range size)),
     mkWorld (S (rng_calls w)) (sim_runs w) (stdout w)).

(** [cirq.Simulator().run(circuit, repetitions=repetitions)]: the simulator
    refuses, with [ValueError], a circuit without measurements and a negative
    number of repetitions. *)
Definition Simulator_run (circuit : cirq.Circuit) (repetitions : Z)
  : Prog cirq.Result :=
  fun w =>
    (if negb (cirq.has_measurements circuit) || Z.ltb repetitions 0
     then Raise ValueError
     else Ok (cirq.mkResult circuit repetitions
                (measured (length (sim_runs w)) circuit repetitions)),
     mkWorld (rng_calls w) (sim_runs w ++ [(circuit, repetitions)])
       (stdout w)).

(** [int(result.measurements[str(i)])]: [KeyError] when the circuit had no
    measurement with that key, [TypeError] when the array does not hold
    exactly one value, that is unless the run had one repetition. *)
Definition int_measurement (result : cirq.Result) (i : nat) : Py.result Z :=
  if cirq.has_key (cirq.ran result) i
  then if Z.eqb (cirq.rows result) 1
       then Ok (Z.b2z (cirq.only_value result i))
       else Raise TypeError
  else Raise KeyError.

(** [[int(result.measurements[str(i)]) for i in range(key_size)]]. *)
Definition read_bits (result : cirq.Result) (key_size : nat)
  : Py.result (list Z) :=
  comprehension (int_measurement result) (range key_size).

(** Lines 99-127 of [main]: the draws, the one or two transmissions and
    the sifting; gives [(a_key, b_key)]. *)
Definition main_exchange (key_size : nat) (eve : bool) (repetitions : Z)
  : Prog (list Z * list Z) :=
  a_bits <<- randint key_size ;;
  a_basis <<- randint key_size ;;
  b_basis <<- randint key_size ;;
  circuit <<-
    (if eve
     then
       e_basis <<- randint key_size ;;
       circuit <<- lift (bb84_circuit a_bits a_basis e_basis) ;;
       print (Text "Circuit 1/2: ") ;;;
       print (Diagram circuit) ;;;
       result <<- Simulator_run circuit repetitions ;;
       eve_bits <<- lift (read_bits result key_size) ;;
       circuit <<- lift (bb84_circuit eve_bits e_basis b_basis) ;;
       print (Text "Circuit 2/2: ") ;;;
       print (Diagram circuit) ;;;
       ret circuit
     else
       circuit <<- lift (bb84_circuit a_bits a_basis b_basis) ;;
       print (Text "Circuit: ") ;;;
       print (Diagram circuit) ;;;
       ret circuit) ;;
  b_result <<- Simulator_run circuit repetitions ;;
  b_bits <<- lift (read_bits b_result key_size) ;;
  print (Text "Quantum Key Exchange complete, sampling keys...\n") ;;;
  keys <<- lift (sift a_bits a_basis b_bits b_basis) ;;
  ret (snd (fst keys), snd keys).

(** Lines 129-145 of [main]: the comparison of the keys, encryption,
    decryption and decoding. *)
Definition main_transmit (bit_msg a_key b_key : list Z) : Prog unit :=
  (if list_eq a_key b_key
   then print (Text "No interference detected!")
   else print (Text interference_warning)) ;;;
  encrypted <<- lift (xor_bits bit_msg a_key) ;;
  print (EncryptedBits encrypted) ;;;
  decrypted <<- lift (xor_bits encrypted b_key) ;;
  print (DecryptedBits decrypted) ;;;
  msg <<- lift (bits_to_string decrypted) ;;
  print (ReceivedMessage msg).

(** [main(msg, key_size, eve, repetitions)], lines 91-145. *)
Definition main (msg : str) (key_size : nat) (eve : bool) (repetitions : Z)
  : Prog unit :=
  print (InputMessage msg) ;;;
  bit_msg <<- lift (string_to_bits msg) ;;
  print (BitMessage bit_msg) ;;;
  print (Text "Initiating Quantum Key Exchange") ;;;
  keys <<- main_exchange key_size eve repetitions ;;
  main_transmit bit_msg (fst keys) (snd keys).

End Driver.

(** A noiseless simulator, for concrete runs.  Each qubit starts in |0>;
    [X] and [H] act on the four states the program can prepare; a qubit
    measured in |0> or |1> gives that bit, one measured in |+> or |-> gives
    the value of [coin]. *)
Inductive qstate : Set := Zero | One | Plus | Minus.

Definition apply_op (q : nat) (st : qstate) (o : cirq.op) : qstate :=
  match o with
  | cirq.X q' =>
      if Nat.eqb q q'
      then match st with
           | Zero => One | One => Zero | Plus => Plus | Minus => Minus
           end
      else st
  | cirq.H q' =>
      if Nat.eqb q q'
      then match st with
           | Zero => Plus | One => Minus | Plus => Zero | Minus => One
           end
      else st
  | cirq.measure _ => st
  end.

Definition qubit_state (circuit : cirq.Circuit) (q : nat) : qstate :=
  fold_left (apply_op q) circuit Zero.

Definition noiseless_simulator (coin : nat -> nat -> bool)
  : nat -> cirq.Circuit -> Z -> nat -> bool :=
  fun n circuit _ q =>
    match qubit_state circuit q with
    | Zero => false
    | One => true
    | Plus | Minus => coin n q
    end.

Definition world0 : World := mkWorld 0 [] [].

(** * Functions of the specification

    What the program computes, written as plain functions; the lemmas below
    relate them to the program. *)

(** The stream the cipher computes: position [i] of [bits] against position
    [i mod K] of the key. *)
Definition xor_stream (bits key : list Z) : list Z :=
  List.map (fun i => Z.lxor (nth i bits 0%Z) (nth (i mod length key) key 0%Z))
    (range (length bits)).

Definition is_bit (z : Z) : Prop := z = 0%Z \/ z = 1%Z.

Definition bit_char (z : Z) : N := if Z.eqb z 0 then ch "0" else ch "1".

(** Value of a group of binary digits, most significant first. *)
Definition binary_value (byte : list Z) (acc : Z) : Z :=
  fold_left (fun a d => (2 * a + d)%Z) byte acc.

(** The characters [string_to_bits] turns into integers for one character. *)
Definition padded (c : N) : str :=
  let bits := slice_from (bin (ord c)) 2 in
  slice_from (lit "00000000") (length bits) ++ bits.

(** The group of bits [string_to_bits] emits for one character. *)
Definition char_bits (c : N) : list Z :=
  List.map (fun d => (Z.of_N d - 48)%Z) (padded c).

(** What [bits_to_string] computes on 0/1 input. *)
Definition decode_bits (bits : list Z) : str :=
  List.map
    (fun b => Z.to_N (binary_value (slice bits (b * 8) ((b + 1) * 8)) 0))
    (range (length bits / 8)).

(** Number of positions at which two basis sequences agree. *)
Fixpoint agreements (A B : list Z) : nat :=
  match A, B with
  | a :: A', b :: B' => ((if Z.eqb a b then 1 else 0) + agreements A' B')%nat
  | _, _ => 0%nat
  end.

Definition same_basis (A B : list Z) (i : nat) : bool :=
  not_ (Z.lxor (nth i A 0%Z) (nth i B 0%Z)).

(** The operations [build_b92_encoder] appends. *)
Definition encoder_ops (bits basis : list Z) : cirq.Circuit :=
  flat_map
    (fun i =>
       (if Z.eqb (nth i bits 0%Z) 1 then [cirq.X i] else []) ++
       (if Z.eqb (nth i basis 0%Z) 1 then [cirq.H i] else []))
    (range (length bits)).

(** The basis changes [build_b92_measurement] appends. *)
Definition measurement_ops (basis : list Z) : cirq.Circuit :=
  flat_map (fun i => if Z.eqb (nth i basis 0%Z) 1 then [cirq.H i] else [])
    (range (length basis)).

(** The circuit [bb84_circuit] builds from sequences of one length. *)
Definition bb84_ops (a_bits a_basis b_basis : list Z) : cirq.Circuit :=
  encoder_ops a_bits a_basis ++ measurement_ops b_basis ++
  cirq.measure_each (range (length a_bits)).

(** The key sifted from [bits] for the bases [A] and [B]. *)
Definition sifted (A B bits : list Z) : list Z :=
  List.map (fun i => nth i bits 0%Z)
    (filter (same_basis A B) (range (length A))).

(** The text of the message as [string_to_bits] encodes it. *)
Definition encoded (msg : str) : list Z := concat (List.map char_bits msg).

(** The world once [main] has printed its first three lines. *)
Definition after_prelude (msg : str) (w : World) : World :=
  mkWorld (rng_calls w) (sim_runs w)
    (stdout w ++
     [InputMessage msg; BitMessage (encoded msg);
      Text "Initiating Quantum Key Exchange"]).

Section Outcome.

Variable randint_out : nat -> nat -> bool.
Variable measured : nat -> cirq.Circuit -> Z -> nat -> bool.

(** The [k]-th array drawn from [randint]. *)
Definition drawn (k key_size : nat) : list Z :=
List.map (fun j => Z.b2z (randint_out k j)) (range key_size).

(** The bits read from the [n]-th run of the simulator. *)
Definition received (n : nat) (circuit : cirq.Circuit) (repetitions : Z)
(key_size : nat) : list Z :=
List.map (fun i => Z.b2z (measured n circuit repetitions i))
  (range key_size).

(** What [main_exchange] computes, written out: the keys and the world it
  leaves. *)
Definition exchange_outcome (key_size : nat) (eve : bool) (repetitions : Z)
(w : World) : (list Z * list Z) * World :=
let k := rng_calls w in
let r := length (sim_runs w) in
let a_bits := drawn k key_size in
let a_basis := drawn (S k) key_size in
let b_basis := drawn (S (S k)) key_size in
if eve
then
  let e_basis := drawn (S (S (S k))) key_size in
  let c1 := bb84_ops a_bits a_basis e_basis in
  let eve_bits := received r c1 repetitions key_size in
  let c2 := bb84_ops eve_bits e_basis b_basis in
  let b_bits := received (S r) c2 repetitions key_size in
  ((sifted a_basis b_basis a_bits, sifted a_basis b_basis b_bits),
   mkWorld (S (S (S (S k))))
     (sim_runs w ++ [(c1, repetitions); (c2, repetitions)])
     (stdout w ++
      [Text "Circuit 1/2: "; Diagram c1; Text "Circuit 2/2: "; Diagram c2;
       Text "Quantum Key Exchange complete, sampling keys...\n"]))
else
  let c := bb84_ops a_bits a_basis b_basis in
  let b_bits := received r c repetitions key_size in
  ((sifted a_basis b_basis a_bits, sifted a_basis b_basis b_bits),
   mkWorld (S (S (S k)))
     (sim_runs w ++ [(c, repetitions)])
     (stdout w ++
      [Text "Circuit: "; Diagram c;
       Text "Quantum Key Exchange complete, sampling keys...\n"])).

End Outcome.

Definition notice (a_key b_key : list Z) : line :=
  if list_eq a_key b_key
  then Text "No interference detected!"
  else Text interference_warning.

(** The channel is noiseless when, on a circuit built from bit and basis
    sequences of one length, every qubit measured in the basis it was
    prepared in gives the bit that was sent. *)
Definition noiseless (measured : nat -> cirq.Circuit -> Z -> nat -> bool)
  : Prop :=
  forall n a_bits a_basis b_basis circuit repetitions i,
    Forall is_bit a_bits ->
    length a_basis = length a_bits -> length b_basis = length a_bits ->
    bb84_circuit a_bits a_basis b_basis = Ok circuit ->
    (i < length a_bits)%nat ->
    nth i b_basis 0%Z = nth i a_basis 0%Z ->
    Z.b2z (measured n circuit repetitions i) = nth i a_bits 0%Z.

(** What [bits_to_string] does with one group of 8: the body of its loop. *)
Definition decode_group (byte : list Z) : result str :=
  v <- int_base2 (join (List.map str_of_int byte)) ;;
  c <- chr v ;;
  Ok [c].

(** Whether [bb84_circuit] finds every element it indexes: the sender's
    basis is at least as long as the bits, and the receiver's basis has no 1
    at a position where there is no qubit. *)
Definition bb84_accepts (a_bits a_basis b_basis : list Z) : bool :=
  (length a_bits <=? length a_basis)%nat &&
  forallb
    (fun i => negb (Z.eqb (nth i b_basis 0%Z) 1) || (i <? length a_bits)%nat)
    (range (length b_basis)).

(** The qubit an operation acts on, and the operations of a circuit on one
    qubit, in order: one line of the circuit diagram. *)
Definition qubit_of (o : cirq.op) : nat :=
  match o with
  | cirq.X q | cirq.H q | cirq.measure q => q
  end.

Definition ops_on (q : nat) (circuit : cirq.Circuit) : list cirq.op :=
  filter (fun o => Nat.eqb (qubit_of o) q) circuit.

(** Whether [sift] finds every element it indexes: the receiver's basis is
    at least as long as the sender's, and both bit sequences reach every
    position at which the bases agree. *)
Definition sift_accepts (a_bits a_basis b_bits b_basis : list Z) : bool :=
  (length a_basis <=? length b_basis)%nat &&
  forallb (fun i => (i <? length a_bits)%nat)
    (filter (same_basis a_basis b_basis) (range (length a_basis))) &&
  forallb (fun i => (i <? length b_bits)%nat)
    (filter (same_basis a_basis b_basis) (range (length a_basis))).

(** A string without surrogate code points, and a line the standard output
    can encode. *)
Definition no_surrogate (s : str) : Prop :=
  Forall (fun c => (c < 55296 \/ 57343 < c)%N) s.

Definition encodable (l : line) : Prop :=
  match l with
  | InputMessage m | ReceivedMessage m => no_surrogate m
  | _ => True
  end.

(** *** Concrete data for runs *)

(** Draws for a run with [key_size = 2]: [a_bits = [1, 0]],
    [a_basis = [1, 1]], [b_basis = [0, 1]] and, with an eavesdropper,
    [e_basis = [0, 0]]. *)
Definition demo_randint (k j : nat) : bool :=
  match k, j with
  | 0, 0 => true
  | 1, _ => true
  | 2, 1 => true
  | _, _ => false
  end%nat.

(** Draws with which the bases never agree: [a_basis] is all 0 and
    [b_basis] all 1. *)
Definition mismatch_randint (k j : nat) : bool := Nat.eqb k 2.

(** Draws for a run with [key_size = 2] in which the eavesdropper picks the
    receiver's basis: [a_bits = [1, 0]], [a_basis = [1, 1]],
    [b_basis = [0, 1]], [e_basis = [0, 1]]. *)
Definition matched_randint (k j : nat) : bool :=
  match k, j with
  | 0, 0 => true
  | 1, _ => true
  | 2, 1 => true
  | 3, 1 => true
  | _, _ => false
  end%nat.

Definition demo_simulator : nat -> cirq.Circuit -> Z -> nat -> bool :=
  noiseless_simulator (fun _ _ => true).

(** * Properties *)

(** ** Loops and comprehensions *)

Section Loops.

Context {A B : Type}.

Lemma for_each_extend (f : A -> result (list B))
  (body : list B -> A -> result (list B)) :
  (forall acc x, body acc x = (ys <- f x ;; Ok (acc ++ ys))) ->
  forall l acc,
    for_each body l acc =
    (yss <- comprehension f l ;; Ok (acc ++ concat yss)).
Proof.
  intros Hbody l; induction l as [|x l IH]; intros acc; simpl.
  - now rewrite app_nil_r.
  - rewrite Hbody. destruct (f x) as [ys|e]; simpl; [|reflexivity].
    rewrite IH. destruct (comprehension f l) as [yss|e]; simpl; [|reflexivity].
    now rewrite app_assoc.
Qed.

Lemma comprehension_ok (f : A -> result B) (g : A -> B) (l : list A) :
  (forall x, In x l -> f x = Ok (g x)) ->
  comprehension f l = Ok (List.map g l).
Proof.
  induction l as [|x l IH]; intros Hf; simpl; [reflexivity|].
  rewrite (Hf x (or_introl eq_refl)); simpl.
  rewrite IH; [reflexivity|]. intros y Hy; apply Hf; now right.
Qed.

Lemma comprehension_if_ok (c : A -> result bool) (f : A -> result B)
  (p : A -> bool) (g : A -> B) (l : list A) :
  (forall x, In x l -> c x = Ok (p x)) ->
  (forall x, In x l -> p x = true -> f x = Ok (g x)) ->
  comprehension_if c f l = Ok (List.map g (filter p l)).
Proof.
  induction l as [|x l IH]; intros Hc Hf; simpl; [reflexivity|].
  rewrite (Hc x (or_introl eq_refl)); simpl.
  assert (IH' : comprehension_if c f l = Ok (List.map g (filter p l))).
  { apply IH; intros y Hy; [apply Hc | apply Hf]; now right. }
  destruct (p x) eqn:Hp.
  - rewrite (Hf x (or_introl eq_refl) Hp); simpl. now rewrite IH'.
  - exact IH'.
Qed.

End Loops.

Lemma concat_map_singleton {A B} (h : A -> B) (l : list A) :
  concat (List.map (fun x => [h x]) l) = List.map h l.
Proof. induction l as [|x l IH]; simpl; congruence. Qed.

Lemma map_nth_range_gen {A} (d : A) (l : list A) :
  List.map (fun i => nth i l d) (range (length l)) = l.
Proof.
  induction l as [|x l IH]; [reflexivity|].
  unfold range in *. cbn [length seq List.map nth]. f_equal.
  rewrite <- seq_shift, map_map. exact IH.
Qed.

Lemma getitem_nth (l : list Z) (i : nat) :
  (i < length l)%nat -> getitem l i = Ok (nth i l 0%Z).
Proof.
  intros Hi. unfold getitem.
  now rewrite (nth_error_nth' l 0%Z Hi).
Qed.

(** ** The XOR cipher *)

Lemma xor_bits_stream (bits key : list Z) :
  key <> [] -> xor_bits bits key = Ok (xor_stream bits key).
Proof.
  intros Hkey. unfold xor_bits.
  rewrite for_each_extend with
    (f := fun i =>
            b <- getitem bits i ;;
            m <- mod_ i (length key) ;;
            k <- getitem key m ;;
            Ok [Z.lxor b k]).
  - rewrite comprehension_ok with
      (g := fun i => [Z.lxor (nth i bits 0%Z)
                        (nth (i mod length key) key 0%Z)]).
    + cbn [bind app]. now rewrite concat_map_singleton.
    + intros i Hi. apply in_seq in Hi.
      rewrite getitem_nth by lia. simpl.
      destruct key as [|k0 key']; [congruence|].
      unfold mod_. cbn [length bind].
      rewrite getitem_nth; [reflexivity|].
      apply Nat.mod_upper_bound. cbn [length]. lia.
  - intros acc i.
    destruct (getitem bits i); simpl; [|reflexivity].
    destruct (mod_ i (length key)) as [m|e]; simpl; [|reflexivity].
    destruct (getitem key m); reflexivity.
Qed.

Lemma xor_stream_length (bits key : list Z) :
  length (xor_stream bits key) = length bits.
Proof. unfold xor_stream, range. now rewrite length_map, length_seq. Qed.

Lemma xor_stream_nth (bits key : list Z) (i : nat) :
  (i < length bits)%nat ->
  nth i (xor_stream bits key) 0%Z =
  Z.lxor (nth i bits 0%Z) (nth (i mod length key) key 0%Z).
Proof.
  intros Hi. unfold xor_stream, range.
  rewrite (nth_indep _ _ (Z.lxor (nth 0 bits 0%Z)
             (nth (0 mod length key) key 0%Z)))
    by now rewrite length_map, length_seq.
  rewrite (map_nth (fun i => Z.lxor (nth i bits 0%Z)
                                (nth (i mod length key) key 0%Z))).
  now rewrite seq_nth.
Qed.

Lemma xor_stream_involutive (bits key : list Z) :
  xor_stream (xor_stream bits key) key = bits.
Proof.
  rewrite <- (map_nth_range_gen 0%Z bits) at 2.
  unfold xor_stream at 1. rewrite xor_stream_length.
  apply map_ext_in. intros i Hi. apply in_seq in Hi.
  rewrite xor_stream_nth by lia.
  now rewrite Z.lxor_assoc, Z.lxor_nilpotent, Z.lxor_0_r.
Qed.

(** C5: for an input of length L and a key of length K > 0, [xor_bits]
    returns a sequence of length L whose element [i] is
    [input[i] XOR key[i mod K]], for every [i < L]. *)
Theorem xor_bits_contract (bits key : list Z) :
  (0 < length key)%nat ->
  exists out,
    xor_bits bits key = Ok out /\
    length out = length bits /\
    forall i, (i < length bits)%nat ->
      nth_error out i =
      Some (Z.lxor (nth i bits 0%Z) (nth (i mod length key) key 0%Z)).
Proof.
  intros HK. exists (xor_stream bits key).
  assert (Hne : key <> []) by (destruct key; simpl in HK; [lia|congruence]).
  split; [now apply xor_bits_stream|].
  split; [apply xor_stream_length|].
  intros i Hi.
  rewrite (nth_error_nth' _ 0%Z) by now rewrite xor_stream_length.
  now rewrite xor_stream_nth.
Qed.

Lemma xor_bits_contract_witness :
  (0 < length [1; 0]%Z)%nat /\
  exists out,
    xor_bits [1; 1; 0; 1; 0]%Z [1; 0]%Z = Ok out /\
    length out = 5%nat /\
    forall i, (i < 5)%nat ->
      nth_error out i =
      Some (Z.lxor (nth i [1; 1; 0; 1; 0]%Z 0%Z)
              (nth (i mod 2) [1; 0]%Z 0%Z)).
Proof.
  split; [simpl; lia|].
  apply (xor_bits_contract [1; 1; 0; 1; 0]%Z [1; 0]%Z). simpl; lia.
Defined.

(** C3: for every bit sequence [b] and every non-empty key [k], applying the
    cipher twice with the same key gives [b] back. *)
Theorem xor_bits_involution (b k : list Z) :
  k <> [] ->
  exists c, xor_bits b k = Ok c /\ xor_bits c k = Ok b.
Proof.
  intros Hk. exists (xor_stream b k). split.
  - now apply xor_bits_stream.
  - rewrite xor_bits_stream by exact Hk.
    now rewrite xor_stream_involutive.
Qed.

Lemma xor_bits_involution_witness :
  [1; 1; 0]%Z <> [] /\
  exists c,
    xor_bits [0; 1; 1; 0; 1]%Z [1; 1; 0]%Z = Ok c /\
    xor_bits c [1; 1; 0]%Z = Ok [0; 1; 1; 0; 1]%Z.
Proof.
  split; [discriminate|].
  apply (xor_bits_involution [0; 1; 1; 0; 1]%Z [1; 1; 0]%Z). discriminate.
Defined.

(** ** The text codec *)

Lemma Forall_firstn {A} (P : A -> Prop) (n : nat) (l : list A) :
  Forall P l -> Forall P (firstn n l).
Proof.
  intros Hl; revert n; induction Hl as [|x l Hx Hl IH]; intros [|n]; simpl;
    auto.
Qed.

Lemma Forall_skipn {A} (P : A -> Prop) (n : nat) (l : list A) :
  Forall P l -> Forall P (skipn n l).
Proof.
  intros Hl; revert n; induction Hl as [|x l Hx Hl IH]; intros [|n]; simpl;
    auto.
Qed.

Lemma for_each_ext {A S} (f g : S -> A -> result S) (l : list A) :
  (forall s x, In x l -> f s x = g s x) ->
  forall s, for_each f l s = for_each g l s.
Proof.
  induction l as [|x l IH]; intros Hfg s; simpl; [reflexivity|].
  rewrite (Hfg s x (or_introl eq_refl)).
  destruct (g s x) as [s'|e]; simpl; [|reflexivity].
  apply IH. intros s0 y Hy. apply Hfg. now right.
Qed.

(** *** Encoding *)

Lemma bin_pos_digits (p : positive) (acc : str) :
  Forall (fun c => c = ch "0" \/ c = ch "1") acc ->
  Forall (fun c => c = ch "0" \/ c = ch "1") (bin_pos p acc).
Proof.
  revert acc; induction p as [p IH|p IH|]; intros acc Hacc; simpl.
  - apply IH. constructor; auto.
  - apply IH. constructor; auto.
  - constructor; auto.
Qed.

Lemma bin_pos_length (p : positive) (acc : str) :
  length (bin_pos p acc) = (Pos.size_nat p + length acc)%nat.
Proof.
  revert acc; induction p as [p IH|p IH|]; intros acc; simpl;
    try rewrite IH; simpl; lia.
Qed.

Lemma size_nat_le (p : positive) (n : nat) :
  (Pos.size_nat p <= n)%nat <-> (Z.pos p < 2 ^ Z.of_nat n)%Z.
Proof.
  revert n; induction p as [p IH|p IH|]; intros [|n]; simpl Pos.size_nat.
  - rewrite Z.pow_0_r. lia.
  - rewrite Nat2Z.inj_succ, Z.pow_succ_r by lia.
    specialize (IH n). lia.
  - rewrite Z.pow_0_r. lia.
  - rewrite Nat2Z.inj_succ, Z.pow_succ_r by lia.
    specialize (IH n). lia.
  - rewrite Z.pow_0_r. lia.
  - rewrite Nat2Z.inj_succ, Z.pow_succ_r by lia.
    assert (0 < 2 ^ Z.of_nat n)%Z by (apply Z.pow_pos_nonneg; lia). lia.
Qed.

Lemma padded_digits (c : N) :
  Forall (fun d => d = ch "0" \/ d = ch "1") (padded c).
Proof.
  unfold padded, slice_from, bin, ord. cbn [skipn].
  apply Forall_app; split.
  - apply Forall_skipn. repeat constructor; auto.
  - destruct c as [|p]; [repeat constructor; auto|].
    apply bin_pos_digits. constructor.
Qed.

Lemma padded_length_small (c : N) :
  (c <= 255)%N -> length (padded c) = 8%nat.
Proof.
  intros Hc. unfold padded, slice_from, bin, ord. cbn [skipn].
  rewrite length_app, length_skipn.
  destruct c as [|p]; [reflexivity|].
  rewrite bin_pos_length. cbn [length lit List.map String.list_ascii_of_string].
  assert (Pos.size_nat p <= 8)%nat by (apply size_nat_le; simpl; lia).
  assert (1 <= Pos.size_nat p)%nat by (destruct p; simpl; lia).
  lia.
Qed.

Lemma padded_length_large (c : N) :
  (255 < c)%N -> (8 < length (padded c))%nat.
Proof.
  intros Hc. unfold padded, slice_from, bin, ord. cbn [skipn].
  rewrite length_app.
  destruct c as [|p]; [lia|].
  rewrite bin_pos_length.
  assert (~ (Pos.size_nat p <= 8)%nat) by (rewrite size_nat_le; simpl; lia).
  lia.
Qed.

Lemma int_of_char_digits (s : str) :
  Forall (fun d => d = ch "0" \/ d = ch "1") s ->
  comprehension int_of_char s = Ok (List.map (fun d => (Z.of_N d - 48)%Z) s).
Proof.
  intros Hs. apply comprehension_ok. intros d Hd.
  rewrite Forall_forall in Hs. destruct (Hs d Hd) as [->| ->]; reflexivity.
Qed.

(** [string_to_bits] never raises: it emits [char_bits] for each character. *)
Lemma string_to_bits_groups (s : str) :
  string_to_bits s = Ok (concat (List.map char_bits s)).
Proof.
  unfold string_to_bits.
  rewrite for_each_extend with
    (f := fun c => comprehension int_of_char (padded c)).
  - rewrite comprehension_ok with (g := char_bits); [reflexivity|].
    intros c _. apply int_of_char_digits, padded_digits.
  - reflexivity.
Qed.

Lemma char_bits_bits (c : N) : Forall is_bit (char_bits c).
Proof.
  unfold char_bits. apply Forall_map.
  eapply Forall_impl; [|apply padded_digits].
  intros d [->| ->]; [left|right]; reflexivity.
Qed.

Lemma char_bits_length (c : N) : length (char_bits c) = length (padded c).
Proof. unfold char_bits. apply length_map. Qed.

Lemma concat_groups_length {A} (n : nat) (ls : list (list A)) :
  Forall (fun x => length x = n) ls ->
  length (concat ls) = (n * length ls)%nat.
Proof.
  induction 1 as [|x ls Hx Hls IH]; simpl; [lia|].
  rewrite length_app, IH, Hx. lia.
Qed.

Lemma slice_concat_groups {A} (n : nat) (ls : list (list A)) (b : nat) :
  Forall (fun x => length x = n) ls ->
  (b < length ls)%nat ->
  slice (concat ls) (b * n) ((b + 1) * n) = nth b ls [].
Proof.
  intros Hls; revert b; induction Hls as [|x ls Hx Hls IH]; intros b Hb;
    simpl in Hb; [lia|].
  unfold slice in *. destruct b as [|b]; simpl concat.
  - simpl. rewrite Nat.add_0_r, Nat.sub_0_r.
    rewrite firstn_app, Hx, Nat.sub_diag, firstn_O, app_nil_r.
    apply firstn_all2. lia.
  - cbn [nth]. rewrite <- (IH b) by lia.
    replace ((S b + 1) * n - S b * n)%nat with ((b + 1) * n - b * n)%nat by lia.
    f_equal. rewrite skipn_app, Hx.
    rewrite skipn_all2 by lia. simpl. f_equal. lia.
Qed.

(** *** Decoding *)

Lemma str_of_int_bit (z : Z) : is_bit z -> str_of_int z = [bit_char z].
Proof. intros [->| ->]; reflexivity. Qed.

Lemma join_str_bits (byte : list Z) :
  Forall is_bit byte ->
  join (List.map str_of_int byte) = List.map bit_char byte.
Proof.
  unfold join.
  induction 1 as [|z byte Hz Hbyte IH]; cbn [List.map concat]; [reflexivity|].
  now rewrite IH, str_of_int_bit.
Qed.

Lemma parse_bin_bits (byte : list Z) (acc : Z) :
  Forall is_bit byte ->
  parse_bin (List.map bit_char byte) acc = Ok (binary_value byte acc).
Proof.
  intros Hb; revert acc; induction Hb as [|z byte Hz Hbyte IH]; intros acc;
    simpl; [reflexivity|].
  destruct Hz as [->| ->]; cbn; rewrite IH; do 2 f_equal; lia.
Qed.

Lemma int_base2_bits (byte : list Z) :
  Forall is_bit byte -> byte <> [] ->
  int_base2 (join (List.map str_of_int byte)) = Ok (binary_value byte 0).
Proof.
  intros Hb Hne. rewrite join_str_bits by exact Hb.
  destruct byte as [|z byte]; [congruence|].
  rewrite <- parse_bin_bits by exact Hb.
  inversion Hb as [|? ? [->| ->] ?]; reflexivity.
Qed.

Lemma binary_value_bound (byte : list Z) (acc : Z) :
  Forall is_bit byte -> (0 <= acc)%Z ->
  (0 <= binary_value byte acc < (acc + 1) * 2 ^ Z.of_nat (length byte))%Z.
Proof.
  intros Hb; revert acc; induction Hb as [|z byte Hz Hbyte IH]; intros acc Hacc.
  - simpl. lia.
  - cbn [binary_value fold_left length].
    rewrite Nat2Z.inj_succ, Z.pow_succ_r by lia.
    assert (Hp : (0 < 2 ^ Z.of_nat (length byte))%Z)
      by (apply Z.pow_pos_nonneg; lia).
    destruct Hz as [->| ->].
    + specialize (IH (2 * acc + 0)%Z ltac:(lia)).
      unfold binary_value in IH. nia.
    + specialize (IH (2 * acc + 1)%Z ltac:(lia)).
      unfold binary_value in IH. nia.
Qed.

Lemma slice_full_length {A} (l : list A) (b : nat) :
  (b < length l / 8)%nat -> length (slice l (b * 8) ((b + 1) * 8)) = 8%nat.
Proof.
  intros Hb. unfold slice. rewrite length_firstn, length_skipn.
  pose proof (Nat.div_mod_eq (length l) 8). lia.
Qed.

(** On 0/1 input [bits_to_string] never raises. *)
Lemma bits_to_string_decode (bits : list Z) :
  Forall is_bit bits -> bits_to_string bits = Ok (decode_bits bits).
Proof.
  intros Hbits. unfold bits_to_string.
  rewrite for_each_extend with
    (f := fun b =>
            v <- int_base2
                   (join (List.map str_of_int
                            (slice bits (b * 8) ((b + 1) * 8)))) ;;
            c <- chr v ;;
            Ok [c]).
  - rewrite comprehension_ok with
      (g := fun b =>
              [Z.to_N (binary_value (slice bits (b * 8) ((b + 1) * 8)) 0)]).
    + cbn [bind app]. now rewrite concat_map_singleton.
    + intros b Hb. apply in_seq in Hb.
      pose proof (slice_full_length bits b ltac:(lia)) as Hlen.
      assert (Hs : Forall is_bit (slice bits (b * 8) ((b + 1) * 8)))
        by (apply Forall_firstn, Forall_skipn, Hbits).
      rewrite int_base2_bits; [|exact Hs|].
      * simpl. pose proof (binary_value_bound _ 0%Z Hs ltac:(lia)) as Hv.
        rewrite Hlen in Hv. simpl in Hv.
        unfold chr.
        replace (Z.ltb _ (-2147483648) || Z.ltb 2147483647 _)%bool
          with false by (symmetry; apply orb_false_iff; split; lia).
        replace (Z.leb 0 _ && Z.ltb _ 1114112)%bool
          with true by (symmetry; apply andb_true_iff; split; lia).
        reflexivity.
      * intros E. rewrite E in Hlen. discriminate.
  - intros acc b.
    destruct (int_base2 _) as [v|e]; simpl; [|reflexivity].
    destruct (chr v); reflexivity.
Qed.

Lemma decode_bits_length (bits : list Z) :
  length (decode_bits bits) = (length bits / 8)%nat.
Proof. unfold decode_bits, range. now rewrite length_map, length_seq. Qed.

Lemma binary_value_app (l1 l2 : list Z) (acc : Z) :
  binary_value (l1 ++ l2) acc = binary_value l2 (binary_value l1 acc).
Proof. apply fold_left_app. Qed.

Lemma binary_value_zeros (zs : str) :
  Forall (fun c => c = ch "0") zs ->
  binary_value (List.map (fun d => (Z.of_N d - 48)%Z) zs) 0 = 0%Z.
Proof. induction 1 as [|c zs -> Hzs IH]; [reflexivity|exact IH]. Qed.

Lemma binary_value_bin_pos (p : positive) (acc : str) :
  binary_value (List.map (fun d => (Z.of_N d - 48)%Z) (bin_pos p acc)) 0 =
  binary_value (List.map (fun d => (Z.of_N d - 48)%Z) acc) (Z.pos p).
Proof.
  revert acc; induction p as [p IH|p IH|]; intros acc; cbn [bin_pos].
  - rewrite IH. reflexivity.
  - rewrite IH. reflexivity.
  - reflexivity.
Qed.

(** The group emitted for a character is its code point in binary. *)
Lemma char_bits_value (c : N) : binary_value (char_bits c) 0 = Z.of_N c.
Proof.
  unfold char_bits, padded, slice_from, bin, ord. cbn [skipn].
  rewrite map_app, binary_value_app, binary_value_zeros.
  - destruct c as [|p]; [reflexivity|]. apply binary_value_bin_pos.
  - apply Forall_skipn. repeat constructor.
Qed.

Lemma decode_groups (s : str) :
  Forall (fun c => (c <= 255)%N) s ->
  decode_bits (concat (List.map char_bits s)) = s.
Proof.
  intros Hs.
  assert (Hg : Forall (fun g => length g = 8%nat) (List.map char_bits s)).
  { apply Forall_map. eapply Forall_impl; [|exact Hs].
    intros c Hc. cbn beta. rewrite char_bits_length.
    now apply padded_length_small. }
  unfold decode_bits.
  rewrite (concat_groups_length 8 _ Hg), length_map.
  rewrite Nat.mul_comm, Nat.div_mul by discriminate.
  transitivity (List.map (fun i => nth i s 0%N) (range (length s)));
    [|apply map_nth_range_gen].
  apply map_ext_in. intros b Hb. apply in_seq in Hb.
  rewrite (slice_concat_groups 8 _ b Hg) by (rewrite length_map; lia).
  rewrite (nth_indep _ [] (char_bits 0%N)) by (rewrite length_map; lia).
  rewrite (map_nth char_bits), char_bits_value. apply N2Z.id.
Qed.

(** C4: for every string whose code points are all in 0-255, decoding the
    encoding gives the string back; the encoding is one 8-bit group per
    character, the code point in binary padded with zeros, so it has 8 times
    as many bits as the string has characters. *)
Theorem codec_round_trip (s : str) :
  Forall (fun c => (c <= 255)%N) s ->
  exists bits,
    string_to_bits s = Ok bits /\
    bits_to_string bits = Ok s /\
    length bits = (8 * length s)%nat /\
    exists groups,
      bits = concat groups /\
      Forall2
        (fun c g =>
           length g = 8%nat /\ Forall is_bit g /\
           binary_value g 0 = Z.of_N c)
        s groups.
Proof.
  intros Hs. exists (concat (List.map char_bits s)).
  assert (Hg : Forall (fun g => length g = 8%nat) (List.map char_bits s)).
  { apply Forall_map. eapply Forall_impl; [|exact Hs].
    intros c Hc. cbn beta. rewrite char_bits_length.
    now apply padded_length_small. }
  split; [apply string_to_bits_groups|].
  split.
  { rewrite bits_to_string_decode.
    - now rewrite decode_groups.
    - apply Forall_concat, Forall_map, Forall_forall.
      intros c _. apply char_bits_bits. }
  split; [now rewrite (concat_groups_length 8 _ Hg), length_map|].
  exists (List.map char_bits s). split; [reflexivity|].
  clear Hg. induction Hs as [|c s Hc Hs IH]; constructor; [|exact IH].
  split; [rewrite char_bits_length; now apply padded_length_small|].
  split; [apply char_bits_bits | apply char_bits_value].
Qed.

Lemma codec_round_trip_witness :
  Forall (fun c => (c <= 255)%N) (lit "Hi") /\
  exists bits,
    string_to_bits (lit "Hi") = Ok bits /\
    bits_to_string bits = Ok (lit "Hi") /\
    length bits = 16%nat /\
    exists groups,
      bits = concat groups /\
      Forall2
        (fun c g =>
           length g = 8%nat /\ Forall is_bit g /\
           binary_value g 0 = Z.of_N c)
        (lit "Hi") groups.
Proof.
  assert (H : Forall (fun c => (c <= 255)%N) (lit "Hi")).
  { repeat constructor; vm_compute; discriminate. }
  split; [exact H|]. exact (codec_round_trip (lit "Hi") H).
Defined.

(** C7, as the code behaves: a string with a code point above 255 is not
    rejected.  [string_to_bits] raises nothing; each character becomes its
    binary expansion, padded to 8 digits when shorter and left as it is when
    longer, so the result has more than 8 bits per character. *)
Theorem string_to_bits_accepts_wide (s : str) :
  Exists (fun c => (255 < c)%N) s ->
  exists bits,
    string_to_bits s = Ok bits /\
    bits = concat (List.map char_bits s) /\
    (forall c, binary_value (char_bits c) 0 = Z.of_N c) /\
    (forall c, (255 < c)%N -> (8 < length (char_bits c))%nat) /\
    (8 * length s < length bits)%nat.
Proof.
  intros Hs. exists (concat (List.map char_bits s)).
  split; [apply string_to_bits_groups|].
  split; [reflexivity|].
  split; [apply char_bits_value|].
  split.
  { intros c Hc. rewrite char_bits_length. now apply padded_length_large. }
  assert (Hge : forall c, (8 <= length (char_bits c))%nat).
  { intros c. rewrite char_bits_length.
    destruct (N.le_gt_cases c 255) as [Hc|Hc].
    - rewrite padded_length_small by exact Hc. lia.
    - pose proof (padded_length_large _ Hc). lia. }
  assert (Hall : forall l, (8 * length l <=
                            length (concat (List.map char_bits l)))%nat).
  { induction l as [|c l IH]; simpl; [lia|].
    rewrite length_app. specialize (Hge c). lia. }
  induction Hs as [c s Hc|c s Hs IH]; simpl; rewrite length_app.
  - pose proof (padded_length_large _ Hc) as Hl.
    rewrite <- char_bits_length in Hl.
    specialize (Hall s). lia.
  - specialize (Hge c). lia.
Qed.

Lemma string_to_bits_accepts_wide_witness :
  Exists (fun c => (255 < c)%N) [72; 8364]%N /\
  exists bits,
    string_to_bits [72; 8364]%N = Ok bits /\
    bits = concat (List.map char_bits [72; 8364]%N) /\
    (forall c, binary_value (char_bits c) 0 = Z.of_N c) /\
    (forall c, (255 < c)%N -> (8 < length (char_bits c))%nat) /\
    (8 * length [72; 8364]%N < length bits)%nat.
Proof.
  assert (H : Exists (fun c => (255 < c)%N) [72; 8364]%N).
  { right. left. reflexivity. }
  split; [exact H|]. exact (string_to_bits_accepts_wide _ H).
Defined.

(** C7 as stated fails: the one-character string with code point 256 is
    encoded, as nine bits, and no exception is raised. *)
Lemma string_to_bits_rejects_wide_counterexample :
  Exists (fun c => (255 < c)%N) [256%N] /\
  string_to_bits [256%N] = Ok [1; 0; 0; 0; 0; 0; 0; 0; 0]%Z /\
  ~ (exists e, string_to_bits [256%N] = Raise e).
Proof.
  split; [left; reflexivity|].
  split; [reflexivity|].
  intros [e He]. discriminate He.
Qed.

(** ** Key sifting *)

Lemma same_basis_iff (A B : list Z) (i : nat) :
  same_basis A B i = true <-> nth i A 0%Z = nth i B 0%Z.
Proof.
  unfold same_basis, not_. rewrite Z.eqb_eq. apply Z.lxor_eq_0_iff.
Qed.

Lemma contains_In (x : nat) (l : list nat) :
  contains x l = true <-> In x l.
Proof.
  unfold contains. rewrite existsb_exists. split.
  - intros [y [Hy Hxy]]. apply Nat.eqb_eq in Hxy. now subst.
  - intros Hx. exists x. split; [exact Hx|apply Nat.eqb_refl].
Qed.

Lemma filter_contains_filter (p : nat -> bool) (l : list nat) :
  filter (fun i => contains i (filter p l)) l = filter p l.
Proof.
  apply filter_ext_in. intros i Hi.
  destruct (p i) eqn:Hp.
  - apply contains_In, filter_In. now split.
  - destruct (contains i (filter p l)) eqn:Hc; [|reflexivity].
    apply contains_In, filter_In in Hc. destruct Hc; congruence.
Qed.

Lemma filter_seq_sorted (p : nat -> bool) (start n : nat) :
  StronglySorted lt (filter p (seq start n)).
Proof.
  revert start; induction n as [|n IH]; intros start; simpl; [constructor|].
  destruct (p start); [|apply IH].
  constructor; [apply IH|].
  apply Forall_forall. intros i Hi.
  apply filter_In in Hi. destruct Hi as [Hi _]. apply in_seq in Hi. lia.
Qed.

Lemma same_basis_count (A B : list Z) :
  length A = length B ->
  length (filter (same_basis A B) (range (length A))) = agreements A B.
Proof.
  revert B; induction A as [|a A IH]; intros [|b B] Hlen; simpl in Hlen;
    try discriminate; [reflexivity|].
  unfold range in *. cbn [length seq filter agreements].
  rewrite <- seq_shift.
  assert (Hshift : forall l,
            filter (same_basis (a :: A) (b :: B)) (List.map S l) =
            List.map S (filter (same_basis A B) l)).
  { induction l as [|i l IHl]; cbn [List.map filter]; [reflexivity|].
    change (same_basis (a :: A) (b :: B) (S i)) with (same_basis A B i).
    destruct (same_basis A B i); cbn [List.map]; now rewrite IHl. }
  assert (Hhead : same_basis (a :: A) (b :: B) 0 = Z.eqb a b).
  { unfold same_basis, not_. cbn [nth].
    destruct (Z.eqb_spec a b) as [->|Hne].
    - now rewrite Z.lxor_nilpotent.
    - apply Z.eqb_neq. now rewrite Z.lxor_eq_0_iff. }
  rewrite Hhead, Hshift.
  destruct (Z.eqb a b); cbn [length]; rewrite length_map, IH by lia;
    reflexivity.
Qed.

Lemma sift_filter (n : nat) (a_bits a_basis b_bits b_basis : list Z) :
  length a_basis = n -> length b_basis = n ->
  length a_bits = n -> length b_bits = n ->
  sift a_bits a_basis b_bits b_basis =
  Ok (filter (same_basis a_basis b_basis) (range n),
      List.map (fun i => nth i a_bits 0%Z)
        (filter (same_basis a_basis b_basis) (range n)),
      List.map (fun i => nth i b_bits 0%Z)
        (filter (same_basis a_basis b_basis) (range n))).
Proof.
  intros HA HB Ha Hb. unfold sift. rewrite HA, HB.
  rewrite comprehension_if_ok with
    (p := same_basis a_basis b_basis) (g := fun i => i).
  - cbn [bind]. rewrite map_id.
    rewrite comprehension_if_ok with
      (p := fun i => contains i (filter (same_basis a_basis b_basis) (range n)))
      (g := fun i => nth i a_bits 0%Z).
    + cbn [bind].
      rewrite comprehension_if_ok with
        (p := fun i =>
                contains i (filter (same_basis a_basis b_basis) (range n)))
        (g := fun i => nth i b_bits 0%Z).
      * cbn [bind]. now rewrite filter_contains_filter.
      * reflexivity.
      * intros i Hi _. apply in_seq in Hi. apply getitem_nth. lia.
    + reflexivity.
    + intros i Hi _. apply in_seq in Hi. apply getitem_nth. lia.
  - intros i Hi. apply in_seq in Hi.
    rewrite !getitem_nth by lia. reflexivity.
  - reflexivity.
Qed.

(** C2: for basis sequences and bit sequences of one length, sifting
    computes the indices at which the bases agree (their XOR is 0), in
    increasing order, projects both bit sequences onto them in that order,
    and gives two keys of the same length, the number of agreeing
    positions. *)
Theorem sift_contract (n : nat) (a_bits a_basis b_bits b_basis : list Z) :
  length a_basis = n -> length b_basis = n ->
  length a_bits = n -> length b_bits = n ->
  exists good_bits a_key b_key,
    sift a_bits a_basis b_bits b_basis = Ok (good_bits, a_key, b_key) /\
    (forall i, In i good_bits <->
               (i < n)%nat /\ nth i a_basis 0%Z = nth i b_basis 0%Z) /\
    (forall i, In i good_bits <->
               (i < n)%nat /\
               Z.lxor (nth i a_basis 0%Z) (nth i b_basis 0%Z) = 0%Z) /\
    StronglySorted lt good_bits /\
    a_key = List.map (fun i => nth i a_bits 0%Z) good_bits /\
    b_key = List.map (fun i => nth i b_bits 0%Z) good_bits /\
    length a_key = length b_key /\
    length a_key = agreements a_basis b_basis.
Proof.
  intros HA HB Ha Hb.
  exists (filter (same_basis a_basis b_basis) (range n)).
  eexists. eexists.
  split; [now apply sift_filter|].
  assert (Hin : forall i,
             In i (filter (same_basis a_basis b_basis) (range n)) <->
             (i < n)%nat /\ nth i a_basis 0%Z = nth i b_basis 0%Z).
  { intros i. rewrite filter_In, same_basis_iff. unfold range.
    rewrite in_seq. split; intros [Hi He]; (split; [lia|exact He]). }
  split; [exact Hin|].
  split; [intros i; rewrite Hin, Z.lxor_eq_0_iff; reflexivity|].
  split; [apply filter_seq_sorted|].
  split; [reflexivity|]. split; [reflexivity|].
  split; [now rewrite !length_map|].
  rewrite length_map, <- HA. apply same_basis_count. congruence.
Qed.

Lemma sift_contract_witness :
  exists good_bits a_key b_key,
    sift [1; 0; 1; 1]%Z [0; 1; 1; 0]%Z [1; 1; 1; 0]%Z [0; 0; 1; 1]%Z =
      Ok (good_bits, a_key, b_key) /\
    (forall i, In i good_bits <->
               (i < 4)%nat /\
               nth i [0; 1; 1; 0]%Z 0%Z = nth i [0; 0; 1; 1]%Z 0%Z) /\
    (forall i, In i good_bits <->
               (i < 4)%nat /\
               Z.lxor (nth i [0; 1; 1; 0]%Z 0%Z)
                 (nth i [0; 0; 1; 1]%Z 0%Z) = 0%Z) /\
    StronglySorted lt good_bits /\
    a_key = List.map (fun i => nth i [1; 0; 1; 1]%Z 0%Z) good_bits /\
    b_key = List.map (fun i => nth i [1; 1; 1; 0]%Z 0%Z) good_bits /\
    length a_key = length b_key /\
    length a_key = agreements [0; 1; 1; 0]%Z [0; 0; 1; 1]%Z.
Proof.
  apply (sift_contract 4 [1; 0; 1; 1]%Z [0; 1; 1; 0]%Z
           [1; 1; 1; 0]%Z [0; 0; 1; 1]%Z); reflexivity.
Defined.

(** ** Circuits *)

Lemma getitem_range (n i : nat) :
  (i < n)%nat -> getitem (range n) i = Ok i.
Proof.
  intros Hi. unfold getitem, range.
  rewrite (nth_error_nth' _ 0%nat) by now rewrite length_seq.
  now rewrite seq_nth.
Qed.

Lemma for_each_append_in {A B} (g : A -> list B)
  (body : list B -> A -> result (list B)) (l : list A) :
  (forall acc x, In x l -> body acc x = Ok (acc ++ g x)) ->
  forall acc, for_each body l acc = Ok (acc ++ flat_map g l).
Proof.
  induction l as [|x l IH]; intros Hbody acc; simpl.
  - now rewrite app_nil_r.
  - rewrite (Hbody acc x (or_introl eq_refl)). cbn [bind].
    rewrite IH by (intros acc' y Hy; apply Hbody; now right).
    now rewrite app_assoc.
Qed.

Lemma build_b92_encoder_ops (circuit : cirq.Circuit) (bits basis : list Z) :
  length basis = length bits ->
  build_b92_encoder circuit (range (length bits)) bits basis =
  Ok (circuit ++ encoder_ops bits basis).
Proof.
  intros Hlen. unfold build_b92_encoder, encoder_ops.
  apply for_each_append_in. intros acc i Hi. apply in_seq in Hi.
  rewrite !getitem_nth, getitem_range by lia. cbn [bind].
  destruct (Z.eqb (nth i bits 0%Z) 1), (Z.eqb (nth i basis 0%Z) 1);
    cbn [bind app]; rewrite ?app_nil_r, <- ?app_assoc; reflexivity.
Qed.

Lemma build_b92_measurement_ops (circuit : cirq.Circuit) (n : nat)
  (basis : list Z) :
  length basis = n ->
  build_b92_measurement circuit (range n) basis =
  Ok (circuit ++ measurement_ops basis ++ cirq.measure_each (range n)).
Proof.
  intros Hlen. unfold build_b92_measurement, measurement_ops.
  rewrite for_each_append_in with
    (g := fun i => if Z.eqb (nth i basis 0%Z) 1 then [cirq.H i] else []).
  - cbn [bind]. now rewrite app_assoc.
  - intros acc i Hi. apply in_seq in Hi.
    rewrite getitem_nth by lia. cbn [bind].
    destruct (Z.eqb (nth i basis 0%Z) 1); cbn [bind];
      [rewrite getitem_range by lia | rewrite app_nil_r]; reflexivity.
Qed.

(** On sequences of one length [bb84_circuit] raises nothing. *)
Lemma bb84_circuit_ops (a_bits a_basis b_basis : list Z) :
  length a_basis = length a_bits -> length b_basis = length a_bits ->
  bb84_circuit a_bits a_basis b_basis = Ok (bb84_ops a_bits a_basis b_basis).
Proof.
  intros Ha Hb. unfold bb84_circuit, bb84_ops.
  rewrite comprehension_ok with (g := fun i => i) by reflexivity.
  rewrite map_id. cbn [bind].
  rewrite build_b92_encoder_ops by exact Ha. cbn [bind].
  rewrite build_b92_measurement_ops by exact Hb. reflexivity.
Qed.

(** ** Runs of the driver *)

Section Runs.

Variable randint_out : nat -> nat -> bool.
Variable measured : nat -> cirq.Circuit -> Z -> nat -> bool.

Lemma drawn_length (k key_size : nat) :
  length (drawn randint_out k key_size) = key_size.
Proof. unfold drawn, range. now rewrite length_map, length_seq. Qed.

Lemma received_length (n : nat) (c : cirq.Circuit) (reps : Z)
  (key_size : nat) : length (received measured n c reps key_size) = key_size.
Proof. unfold received, range. now rewrite length_map, length_seq. Qed.

Lemma drawn_bits (k key_size : nat) :
  Forall is_bit (drawn randint_out k key_size).
Proof.
  unfold drawn. apply Forall_map, Forall_forall. intros j _.
  destruct (randint_out k j); [right|left]; reflexivity.
Qed.

Lemma received_bits (n : nat) (c : cirq.Circuit) (reps : Z)
  (key_size : nat) : Forall is_bit (received measured n c reps key_size).
Proof.
  unfold received. apply Forall_map, Forall_forall. intros j _.
  destruct (measured n c reps j); [right|left]; reflexivity.
Qed.

Lemma bb84_ops_has_key (a_bits a_basis b_basis : list Z) (i : nat) :
  (i < length a_bits)%nat ->
  cirq.has_key (bb84_ops a_bits a_basis b_basis) i = true.
Proof.
  intros Hi. unfold cirq.has_key. apply existsb_exists.
  exists (cirq.measure i). split; [|apply Nat.eqb_refl].
  unfold bb84_ops, cirq.measure_each, range.
  rewrite !in_app_iff. right. right.
  apply in_map, in_seq. lia.
Qed.

Lemma bb84_ops_has_measurements (a_bits a_basis b_basis : list Z) :
  (1 <= length a_bits)%nat ->
  cirq.has_measurements (bb84_ops a_bits a_basis b_basis) = true.
Proof.
  intros Hn. unfold cirq.has_measurements. apply existsb_exists.
  exists (cirq.measure 0). split; [|reflexivity].
  unfold bb84_ops, cirq.measure_each, range.
  rewrite !in_app_iff. right. right.
  apply in_map, in_seq. lia.
Qed.

(** With one repetition every key of a measured qubit is read. *)
Lemma read_bits_received (n : nat) (c : cirq.Circuit) (key_size : nat) :
  (forall i, (i < key_size)%nat -> cirq.has_key c i = true) ->
  read_bits (cirq.mkResult c 1 (measured n c 1)) key_size =
  Ok (received measured n c 1 key_size).
Proof.
  intros Hkeys. unfold read_bits, received. apply comprehension_ok.
  intros i Hi. apply in_seq in Hi.
  unfold int_measurement. cbn [cirq.ran cirq.rows cirq.only_value].
  now rewrite Hkeys by lia.
Qed.

(** With another number of repetitions the first conversion fails. *)
Lemma read_bits_rows (c : cirq.Circuit) (rows : Z) (v : nat -> bool)
  (n : nat) :
  rows <> 1%Z -> cirq.has_key c 0 = true ->
  read_bits (cirq.mkResult c rows v) (S n) = Raise TypeError.
Proof.
  intros Hrows Hkey. unfold read_bits, range. cbn [seq comprehension].
  unfold int_measurement. cbn [cirq.ran cirq.rows cirq.only_value].
  rewrite Hkey, (proj2 (Z.eqb_neq rows 1) Hrows). reflexivity.
Qed.

Lemma sift_sifted (n : nat) (a_bits a_basis b_bits b_basis : list Z) :
  length a_basis = n -> length b_basis = n ->
  length a_bits = n -> length b_bits = n ->
  sift a_bits a_basis b_bits b_basis =
  Ok (filter (same_basis a_basis b_basis) (range n),
      sifted a_basis b_basis a_bits, sifted a_basis b_basis b_bits).
Proof.
  intros HA HB Ha Hb. unfold sifted. rewrite HA.
  now apply sift_filter.
Qed.

(** With [key_size >= 1] and one repetition [main_exchange] raises
    nothing. *)
Lemma main_exchange_run (key_size : nat) (eve : bool) (w : World) :
  (1 <= key_size)%nat ->
  main_exchange randint_out measured key_size eve 1 w =
  (Ok (fst (exchange_outcome randint_out measured key_size eve 1 w)),
   snd (exchange_outcome randint_out measured key_size eve 1 w)).
Proof.
  intros Hsize.
  destruct eve;
    unfold main_exchange, exchange_outcome, bindP, randint, Simulator_run,
      lift, print, ret;
    cbn [rng_calls sim_runs stdout];
    repeat match goal with
      | |- context [List.map (fun j => Z.b2z (randint_out ?k j)) (range ?n)] =>
          change (List.map (fun j => Z.b2z (randint_out k j)) (range n))
            with (drawn randint_out k n)
      end.
  - rewrite bb84_circuit_ops by now rewrite !drawn_length.
    rewrite bb84_ops_has_measurements by now rewrite drawn_length.
    cbn [negb orb Z.ltb Z.compare].
    rewrite read_bits_received
      by (intros i Hi; apply bb84_ops_has_key; now rewrite drawn_length).
    rewrite bb84_circuit_ops
      by now rewrite ?drawn_length, ?received_length.
    cbn [rng_calls sim_runs stdout].
    rewrite bb84_ops_has_measurements by now rewrite received_length.
    cbn [negb orb].
    rewrite length_app, Nat.add_1_r.
    rewrite read_bits_received
      by (intros i Hi; apply bb84_ops_has_key; now rewrite received_length).
    rewrite (sift_sifted key_size)
      by now rewrite ?drawn_length, ?received_length.
    cbn [fst snd rng_calls sim_runs stdout].
    rewrite <- !app_assoc. reflexivity.
  - rewrite bb84_circuit_ops by now rewrite !drawn_length.
    rewrite bb84_ops_has_measurements by now rewrite drawn_length.
    cbn [negb orb Z.ltb Z.compare].
    rewrite read_bits_received
      by (intros i Hi; apply bb84_ops_has_key; now rewrite drawn_length).
    rewrite (sift_sifted key_size)
      by now rewrite ?drawn_length, ?received_length.
    cbn [fst snd rng_calls sim_runs stdout].
    rewrite <- !app_assoc. reflexivity.
Qed.

(** With no qubit the simulator refuses the empty circuit. *)
Lemma main_exchange_no_qubit (eve : bool) (repetitions : Z) (w : World) :
  fst (main_exchange randint_out measured 0 eve repetitions w) =
  Raise ValueError.
Proof. destruct eve; reflexivity. Qed.

(** With a number of repetitions other than one the first transmission is
    the last: the simulator refuses a negative number, and the read-out of
    its result fails otherwise. *)
Lemma main_exchange_rows (key_size : nat) (eve : bool) (repetitions : Z)
  (w : World) :
  (1 <= key_size)%nat -> repetitions <> 1%Z ->
  (fst (main_exchange randint_out measured key_size eve repetitions w) =
     Raise ValueError \/
   fst (main_exchange randint_out measured key_size eve repetitions w) =
     Raise TypeError) /\
  length
    (sim_runs
       (snd (main_exchange randint_out measured key_size eve repetitions w))) =
  S (length (sim_runs w)).
Proof.
  intros Hsize Hrep.
  destruct key_size as [|n]; [lia|].
  destruct eve;
    unfold main_exchange, bindP, randint, Simulator_run, lift, print, ret;
    cbn [rng_calls sim_runs stdout];
    repeat match goal with
      | |- context [List.map (fun j => Z.b2z (randint_out ?k j)) (range ?n)] =>
          change (List.map (fun j => Z.b2z (randint_out k j)) (range n))
            with (drawn randint_out k n)
      end;
    rewrite bb84_circuit_ops by (now rewrite !drawn_length);
    rewrite bb84_ops_has_measurements by (rewrite drawn_length; lia);
    cbn [negb orb];
    (destruct (Z.ltb repetitions 0);
     [cbn [fst snd sim_runs]; rewrite length_app; cbn [length];
      split; [now left|lia]|]);
    rewrite read_bits_rows
      by (try exact Hrep; apply bb84_ops_has_key; rewrite drawn_length; lia);
    cbn [fst snd sim_runs]; rewrite length_app; cbn [length];
    (split; [now right|lia]).
Qed.

(** [main_exchange] returns only with [key_size >= 1] and one repetition. *)
Lemma main_exchange_returns (key_size : nat) (eve : bool) (repetitions : Z)
  (w w1 : World) (keys : list Z * list Z) :
  main_exchange randint_out measured key_size eve repetitions w =
    (Ok keys, w1) ->
  repetitions = 1%Z /\ (1 <= key_size)%nat.
Proof.
  intros Hex.
  destruct key_size as [|n].
  - pose proof (main_exchange_no_qubit eve repetitions w) as H.
    rewrite Hex in H. discriminate H.
  - destruct (Z.eq_dec repetitions 1) as [E|Hne]; [split; [exact E|lia]|].
    destruct (main_exchange_rows (S n) eve repetitions w ltac:(lia) Hne)
      as [[H|H] _]; rewrite Hex in H; discriminate H.
Qed.

Lemma main_stages (msg : str) (key_size : nat) (eve : bool)
  (repetitions : Z) (w : World) :
  main randint_out measured msg key_size eve repetitions w =
  (keys <<- main_exchange randint_out measured key_size eve repetitions ;;
   main_transmit (encoded msg) (fst keys) (snd keys)) (after_prelude msg w).
Proof.
  unfold main, bindP at 1 2 3 4, lift, print, after_prelude.
  rewrite string_to_bits_groups. cbn [rng_calls sim_runs stdout].
  rewrite <- !app_assoc. reflexivity.
Qed.

End Runs.

(** ** Encryption, decryption and decoding *)

Lemma list_eq_spec (l1 l2 : list Z) : list_eq l1 l2 = true <-> l1 = l2.
Proof.
  revert l2; induction l1 as [|x l1 IH]; intros [|y l2]; simpl;
    try (split; [discriminate|congruence]); [tauto|].
  rewrite andb_true_iff, Z.eqb_eq, IH. split.
  - intros [-> ->]. reflexivity.
  - intros E. injection E as -> ->. now split.
Qed.

Lemma is_bit_lxor (x y : Z) : is_bit x -> is_bit y -> is_bit (Z.lxor x y).
Proof. intros [->| ->] [->| ->]; [left|right|right|left]; reflexivity. Qed.

Lemma is_bit_nth (l : list Z) (i : nat) :
  Forall is_bit l -> is_bit (nth i l 0%Z).
Proof.
  intros Hl. destruct (Nat.lt_ge_cases i (length l)) as [Hi|Hi].
  - rewrite Forall_forall in Hl. apply Hl, nth_In, Hi.
  - rewrite nth_overflow by exact Hi. now left.
Qed.

Lemma xor_stream_bits (bits key : list Z) :
  Forall is_bit bits -> Forall is_bit key ->
  Forall is_bit (xor_stream bits key).
Proof.
  intros Hb Hk. unfold xor_stream. apply Forall_map, Forall_forall.
  intros i _. apply is_bit_lxor; now apply is_bit_nth.
Qed.

Lemma sifted_bits (A B bits : list Z) :
  Forall is_bit bits -> Forall is_bit (sifted A B bits).
Proof.
  intros Hb. unfold sifted. apply Forall_map, Forall_forall.
  intros i _. now apply is_bit_nth.
Qed.

Lemma sifted_length (A B bits bits' : list Z) :
  length (sifted A B bits) = length (sifted A B bits').
Proof. unfold sifted. now rewrite !length_map. Qed.

Lemma encoded_bits (msg : str) : Forall is_bit (encoded msg).
Proof.
  unfold encoded. apply Forall_concat, Forall_map, Forall_forall.
  intros c _. apply char_bits_bits.
Qed.

Lemma encoded_nonempty (msg : str) : msg <> [] -> encoded msg <> [].
Proof.
  destruct msg as [|c msg]; [congruence|]. intros _ E.
  apply (f_equal (@length Z)) in E. unfold encoded in E.
  cbn [List.map concat] in E. rewrite length_app, char_bits_length in E.
  assert (8 <= length (padded c))%nat.
  { destruct (N.le_gt_cases c 255) as [Hc|Hc].
    - rewrite padded_length_small by exact Hc. lia.
    - pose proof (padded_length_large _ Hc). lia. }
  simpl in E. lia.
Qed.

(** With an empty key the cipher fails at its first modulo. *)
Lemma xor_bits_empty_key (bits : list Z) :
  bits <> [] -> xor_bits bits [] = Raise ZeroDivisionError.
Proof. destruct bits as [|b bits]; [congruence|reflexivity]. Qed.

Section Transmission.

Variable randint_out : nat -> nat -> bool.
Variable measured : nat -> cirq.Circuit -> Z -> nat -> bool.

Lemma main_transmit_keys (bit_msg a_key b_key : list Z) (w : World) :
  Forall is_bit bit_msg -> Forall is_bit a_key -> Forall is_bit b_key ->
  a_key <> [] -> b_key <> [] ->
  main_transmit bit_msg a_key b_key w =
  (Ok tt,
   mkWorld (rng_calls w) (sim_runs w)
     (stdout w ++
      [notice a_key b_key;
       EncryptedBits (xor_stream bit_msg a_key);
       DecryptedBits (xor_stream (xor_stream bit_msg a_key) b_key);
       ReceivedMessage
         (decode_bits (xor_stream (xor_stream bit_msg a_key) b_key))])).
Proof.
  intros Hm Ha Hb Hane Hbne.
  unfold main_transmit, bindP, lift, notice.
  rewrite (xor_bits_stream bit_msg a_key Hane).
  rewrite (xor_bits_stream _ b_key Hbne).
  rewrite bits_to_string_decode by (repeat apply xor_stream_bits; assumption).
  destruct (list_eq a_key b_key); unfold print;
    cbn [rng_calls sim_runs stdout]; rewrite <- !app_assoc; reflexivity.
Qed.

Lemma main_transmit_no_key (bit_msg : list Z) (w : World) :
  bit_msg <> [] ->
  main_transmit bit_msg [] [] w =
  (Raise ZeroDivisionError,
   mkWorld (rng_calls w) (sim_runs w)
     (stdout w ++ [Text "No interference detected!"])).
Proof.
  intros Hm. unfold main_transmit, bindP, lift.
  rewrite (xor_bits_empty_key _ Hm). reflexivity.
Qed.

Lemma exchange_keys (key_size : nat) (eve : bool) (repetitions : Z)
  (w w1 : World) (a_key b_key : list Z) :
  main_exchange randint_out measured key_size eve repetitions w =
  (Ok (a_key, b_key), w1) ->
  Forall is_bit a_key /\ Forall is_bit b_key /\
  length a_key = length b_key.
Proof.
  intros E.
  destruct (main_exchange_returns _ _ _ _ _ _ _ _ E) as [-> Hsize].
  rewrite main_exchange_run in E by exact Hsize. injection E as E _.
  unfold exchange_outcome in E.
  destruct eve; cbn [fst] in E; injection E as <- <-;
    (split; [apply sifted_bits, drawn_bits|]);
    (split; [apply sifted_bits, received_bits|apply sifted_length]).
Qed.

(** C8: when the two sifted keys differ, [main] does not abort: it prints
    the warning, encrypts with the sender's key, decrypts with the
    receiver's key and prints the decrypted message, whatever it is. *)
Theorem interference_not_an_error (msg : str) (key_size : nat) (eve : bool)
  (repetitions : Z) (w w1 : World) (a_key b_key : list Z) :
  main_exchange randint_out measured key_size eve repetitions
    (after_prelude msg w) = (Ok (a_key, b_key), w1) ->
  a_key <> b_key ->
  exists bit_msg encrypted decrypted received_msg,
    string_to_bits msg = Ok bit_msg /\
    xor_bits bit_msg a_key = Ok encrypted /\
    xor_bits encrypted b_key = Ok decrypted /\
    bits_to_string decrypted = Ok received_msg /\
    main randint_out measured msg key_size eve repetitions w =
    (Ok tt,
     mkWorld (rng_calls w1) (sim_runs w1)
       (stdout w1 ++
        [Text interference_warning; EncryptedBits encrypted;
         DecryptedBits decrypted; ReceivedMessage received_msg])).
Proof.
  intros Hex Hne.
  destruct (exchange_keys _ _ _ _ _ _ _ Hex) as [Ha [Hb Hlen]].
  assert (Hane : a_key <> []).
  { intros ->. destruct b_key; [congruence|discriminate]. }
  assert (Hbne : b_key <> []).
  { intros ->. destruct a_key; [congruence|discriminate]. }
  pose proof (encoded_bits msg) as Hm.
  exists (encoded msg), (xor_stream (encoded msg) a_key),
    (xor_stream (xor_stream (encoded msg) a_key) b_key),
    (decode_bits (xor_stream (xor_stream (encoded msg) a_key) b_key)).
  split; [apply string_to_bits_groups|].
  split; [now apply xor_bits_stream|].
  split; [now apply xor_bits_stream|].
  split; [apply bits_to_string_decode; now repeat apply xor_stream_bits|].
  rewrite main_stages. unfold bindP at 1. rewrite Hex. cbn [fst snd].
  rewrite main_transmit_keys by assumption.
  unfold notice.
  destruct (list_eq a_key b_key) eqn:E; [|reflexivity].
  apply list_eq_spec in E. contradiction.
Qed.

(** C6, as the code behaves: [main] has no check for an empty key.  When
    the sifted key is empty and the message is not, [main] prints that no
    interference was detected and stops in [xor_bits] with the
    [ZeroDivisionError] of [i % len(key)]. *)
Theorem empty_key_reaches_modulo (msg : str) (key_size : nat) (eve : bool)
  (repetitions : Z) (w w1 : World) (b_key : list Z) :
  main_exchange randint_out measured key_size eve repetitions
    (after_prelude msg w) = (Ok ([], b_key), w1) ->
  msg <> [] ->
  exists bit_msg,
    string_to_bits msg = Ok bit_msg /\
    xor_bits bit_msg [] = Raise ZeroDivisionError /\
    main randint_out measured msg key_size eve repetitions w =
    (Raise ZeroDivisionError,
     mkWorld (rng_calls w1) (sim_runs w1)
       (stdout w1 ++ [Text "No interference detected!"])).
Proof.
  intros Hex Hmsg.
  destruct (exchange_keys _ _ _ _ _ _ _ Hex) as [_ [_ Hlen]].
  assert (b_key = []) as -> by (destruct b_key; [reflexivity|discriminate]).
  pose proof (encoded_nonempty _ Hmsg) as Hne.
  exists (encoded msg).
  split; [apply string_to_bits_groups|].
  split; [now apply xor_bits_empty_key|].
  rewrite main_stages. unfold bindP at 1. rewrite Hex. cbn [fst snd].
  now apply main_transmit_no_key.
Qed.

End Transmission.

Section Protocol.

Variable randint_out : nat -> nat -> bool.
Variable measured : nat -> cirq.Circuit -> Z -> nat -> bool.

Lemma received_nth (n : nat) (c : cirq.Circuit) (reps : Z)
  (key_size i : nat) :
  (i < key_size)%nat ->
  nth i (received measured n c reps key_size) 0%Z =
  Z.b2z (measured n c reps i).
Proof.
  intros Hi. unfold received, range.
  rewrite (nth_indep _ _ (Z.b2z (measured n c reps 0)))
    by now rewrite length_map, length_seq.
  rewrite (map_nth (fun i => Z.b2z (measured n c reps i))).
  now rewrite seq_nth.
Qed.

Lemma main_transmit_sim_runs (bit_msg a_key b_key : list Z) (w : World) :
  sim_runs (snd (main_transmit bit_msg a_key b_key w)) = sim_runs w.
Proof.
  unfold main_transmit, bindP, lift, print.
  destruct (list_eq a_key b_key);
    destruct (xor_bits bit_msg a_key) as [enc|e]; cbn [snd sim_runs];
    try reflexivity;
    destruct (xor_bits enc b_key) as [dec|e]; cbn [snd sim_runs];
    try reflexivity;
    destruct (bits_to_string dec); reflexivity.
Qed.

(** C1, with the conditions the code needs: with one repetition, no
    eavesdropper and a channel that returns the sent bit wherever the two
    bases agree, for every printable ASCII message and every
    [key_size >= 1] the two sifted keys are equal; and when that key is not
    empty (the bases agree somewhere), or the message is empty, [main] runs
    to its end, reports no interference, and the message it prints as
    received is the input message. *)
Theorem no_eavesdropper_correctness (msg : str) (key_size : nat) (w : World) :
  Forall (fun c => (32 <= c <= 126)%N) msg ->
  (1 <= key_size)%nat ->
  let a_bits := drawn randint_out (rng_calls w) key_size in
  let a_basis := drawn randint_out (S (rng_calls w)) key_size in
  let b_basis := drawn randint_out (S (S (rng_calls w))) key_size in
  (forall circuit,
      bb84_circuit a_bits a_basis b_basis = Ok circuit ->
      forall i, (i < key_size)%nat ->
        nth i b_basis 0%Z = nth i a_basis 0%Z ->
        Z.b2z (measured (length (sim_runs w)) circuit 1 i) =
        nth i a_bits 0%Z) ->
  exists a_key b_key w1,
    main_exchange randint_out measured key_size false 1
      (after_prelude msg w) = (Ok (a_key, b_key), w1) /\
    a_key = b_key /\
    (a_key <> [] \/ msg = [] ->
     exists bit_msg encrypted,
       string_to_bits msg = Ok bit_msg /\
       main randint_out measured msg key_size false 1 w =
       (Ok tt,
        mkWorld (rng_calls w1) (sim_runs w1)
          (stdout w1 ++
           [Text "No interference detected!"; EncryptedBits encrypted;
            DecryptedBits bit_msg; ReceivedMessage msg]))).
Proof.
  intros Hmsg Hsize a_bits a_basis b_basis Hideal.
  pose (c := bb84_ops a_bits a_basis b_basis).
  pose (b_bits := received measured (length (sim_runs w)) c 1 key_size).
  assert (Hkeys : sifted a_basis b_basis b_bits =
                  sifted a_basis b_basis a_bits).
  { unfold sifted. apply map_ext_in. intros i Hi.
    apply filter_In in Hi. destruct Hi as [Hi Hsame].
    apply in_seq in Hi. apply same_basis_iff in Hsame.
    unfold a_basis in Hi. rewrite drawn_length in Hi.
    unfold b_bits. rewrite received_nth by lia.
    apply Hideal; [|lia|now symmetry].
    apply bb84_circuit_ops; unfold a_bits, a_basis, b_basis;
      now rewrite !drawn_length. }
  exists (sifted a_basis b_basis a_bits), (sifted a_basis b_basis b_bits).
  eexists. split.
  { rewrite main_exchange_run by exact Hsize. unfold exchange_outcome.
    cbn [fst snd after_prelude rng_calls sim_runs stdout]. reflexivity. }
  split; [now rewrite Hkeys|].
  intros Hcase.
  set (key := sifted a_basis b_basis a_bits) in *.
  exists (encoded msg).
  assert (Hsmall : Forall (fun c => (c <= 255)%N) msg).
  { eapply Forall_impl; [|exact Hmsg]. cbn beta. intros ch Hch. lia. }
  rewrite main_stages. unfold bindP at 1.
  rewrite main_exchange_run by exact Hsize.
  unfold exchange_outcome.
  cbn [fst snd after_prelude rng_calls sim_runs stdout].
  fold a_bits a_basis b_basis c b_bits. rewrite Hkeys. fold key.
  assert (Heq : list_eq key key = true) by now apply list_eq_spec.
  assert (Hkb : Forall is_bit key) by apply sifted_bits, drawn_bits.
  destruct key as [|k0 key'] eqn:Ekey.
  - destruct Hcase as [Hcase|Hcase]; [congruence|]. subst msg.
    exists []. split; [reflexivity|].
    unfold main_transmit, bindP, lift, print. cbn.
    rewrite <- !app_assoc. reflexivity.
  - exists (xor_stream (encoded msg) (k0 :: key')).
    split; [apply string_to_bits_groups|].
    rewrite main_transmit_keys;
      [|apply encoded_bits|exact Hkb|exact Hkb|discriminate|discriminate].
    unfold notice. rewrite Heq.
    rewrite xor_stream_involutive.
    unfold encoded. rewrite decode_groups by exact Hsmall.
    reflexivity.
Qed.

(** C9, with the conditions the code needs: with the eavesdropper flag set,
    [key_size >= 1] and one repetition, the exchange makes two transmissions,
    one after the other.  The eavesdropper's basis is a fourth array drawn
    from [randint]; the first circuit is built from the sender's bits and
    basis with that array as receiver basis; the second is built from the
    bits measured on the first, with that array as sender basis and the
    receiver's basis as receiver basis; the receiver's key is sifted from
    the bits measured on the second. *)
Theorem eavesdropper_two_transmissions (msg : str) (key_size : nat)
  (w : World) :
  (1 <= key_size)%nat ->
  let k := rng_calls w in
  let r := length (sim_runs w) in
  let a_bits := drawn randint_out k key_size in
  let a_basis := drawn randint_out (S k) key_size in
  let b_basis := drawn randint_out (S (S k)) key_size in
  let e_basis := drawn randint_out (S (S (S k))) key_size in
  exists c1 c2 a_key b_key w1,
    bb84_circuit a_bits a_basis e_basis = Ok c1 /\
    bb84_circuit (received measured r c1 1 key_size) e_basis b_basis =
      Ok c2 /\
    main_exchange randint_out measured key_size true 1
      (after_prelude msg w) = (Ok (a_key, b_key), w1) /\
    sim_runs w1 = sim_runs w ++ [(c1, 1%Z); (c2, 1%Z)] /\
    rng_calls w1 = S (S (S (S k))) /\
    a_key = sifted a_basis b_basis a_bits /\
    b_key = sifted a_basis b_basis (received measured (S r) c2 1 key_size) /\
    sim_runs (snd (main randint_out measured msg key_size true 1 w)) =
    sim_runs w ++ [(c1, 1%Z); (c2, 1%Z)].
Proof.
  intros Hsize k r a_bits a_basis b_basis e_basis.
  exists (bb84_ops a_bits a_basis e_basis).
  exists (bb84_ops
            (received measured r (bb84_ops a_bits a_basis e_basis) 1 key_size)
            e_basis b_basis).
  do 3 eexists.
  split.
  { apply bb84_circuit_ops; unfold a_bits, a_basis, e_basis;
      now rewrite !drawn_length. }
  split.
  { apply bb84_circuit_ops; unfold e_basis, b_basis;
      now rewrite ?drawn_length, ?received_length. }
  split.
  { rewrite main_exchange_run by exact Hsize. unfold exchange_outcome.
    cbn [fst snd after_prelude rng_calls sim_runs stdout]. reflexivity. }
  cbn [rng_calls sim_runs].
  repeat (split; [reflexivity|]).
  rewrite main_stages. unfold bindP at 1.
  rewrite main_exchange_run by exact Hsize.
  rewrite main_transmit_sim_runs. reflexivity.
Qed.

End Protocol.

(** ** A noiseless channel *)

Lemma fold_apply_flat_map (g : nat -> list cirq.op) (q : nat) :
  (forall j st, j <> q -> fold_left (apply_op q) (g j) st = st) ->
  forall len start st,
    fold_left (apply_op q) (flat_map g (seq start len)) st =
    if ((start <=? q) && (q <? start + len))%nat
    then fold_left (apply_op q) (g q) st
    else st.
Proof.
  intros Hother len. induction len as [|len IH]; intros start st.
  - simpl. destruct (start <=? q)%nat eqn:E1; [|reflexivity].
    destruct (q <? start + 0)%nat eqn:E2; [|reflexivity].
    apply Nat.leb_le in E1. apply Nat.ltb_lt in E2. lia.
  - cbn [seq flat_map]. rewrite fold_left_app, IH.
    destruct (Nat.eq_dec start q) as [->|Hne].
    + replace ((S q <=? q) && (q <? S q + len))%nat with false
        by (symmetry; apply andb_false_iff; left; apply Nat.leb_gt; lia).
      replace ((q <=? q) && (q <? q + S len))%nat with true
        by (symmetry; apply andb_true_iff; split;
            [apply Nat.leb_le|apply Nat.ltb_lt]; lia).
      reflexivity.
    + rewrite (Hother start st Hne).
      destruct (Nat.leb_spec (S start) q), (Nat.ltb_spec q (S start + len)),
               (Nat.leb_spec start q), (Nat.ltb_spec q (start + S len));
        cbn [andb]; try reflexivity; lia.
Qed.

Lemma fold_apply_measures (q : nat) (qubits : list nat) (st : qstate) :
  fold_left (apply_op q) (cirq.measure_each qubits) st = st.
Proof.
  unfold cirq.measure_each.
  induction qubits as [|x qubits IH]; simpl; [reflexivity|exact IH].
Qed.

Lemma qubit_state_bb84 (a_bits a_basis b_basis : list Z) (i : nat) :
  length a_basis = length a_bits -> length b_basis = length a_bits ->
  (i < length a_bits)%nat ->
  qubit_state (bb84_ops a_bits a_basis b_basis) i =
  fold_left (apply_op i)
    ((if Z.eqb (nth i a_bits 0%Z) 1 then [cirq.X i] else []) ++
     (if Z.eqb (nth i a_basis 0%Z) 1 then [cirq.H i] else []) ++
     (if Z.eqb (nth i b_basis 0%Z) 1 then [cirq.H i] else []))
    Zero.
Proof.
  intros Ha Hb Hi. unfold qubit_state, bb84_ops, encoder_ops, measurement_ops.
  rewrite !fold_left_app, fold_apply_measures. unfold range.
  assert (Hin : forall n, (i < n)%nat ->
                  ((0 <=? i) && (i <? 0 + n))%nat = true).
  { intros n Hn. apply andb_true_iff; split;
      [apply Nat.leb_le|apply Nat.ltb_lt]; lia. }
  rewrite !fold_apply_flat_map;
    [rewrite !Hin by lia; now rewrite fold_left_app | ..];
    intros j st Hj;
    assert (Hij : Nat.eqb i j = false) by (apply Nat.eqb_neq; congruence);
    repeat match goal with
      | |- context [Z.eqb ?a 1] => destruct (Z.eqb a 1)
      end;
    simpl; rewrite ?Hij; reflexivity.
Qed.

(** The simulator defined above is noiseless, whatever the coin. *)
Lemma noiseless_simulator_noiseless (coin : nat -> nat -> bool) :
  noiseless (noiseless_simulator coin).
Proof.
  intros n a_bits a_basis b_basis circuit reps i Hbits Ha Hb Hc Hi Hsame.
  rewrite bb84_circuit_ops in Hc by assumption. injection Hc as <-.
  unfold noiseless_simulator.
  rewrite qubit_state_bb84 by assumption. rewrite Hsame.
  destruct (is_bit_nth a_bits i Hbits) as [-> | ->];
    destruct (Z.eqb (nth i a_basis 0%Z) 1); simpl;
    rewrite ?Nat.eqb_refl; reflexivity.
Qed.

(** A noiseless channel meets the condition of the run without
    eavesdropper. *)
Lemma noiseless_run (randint_out : nat -> nat -> bool)
  (measured : nat -> cirq.Circuit -> Z -> nat -> bool)
  (key_size : nat) (repetitions : Z) (w : World) :
  noiseless measured ->
  let a_bits := drawn randint_out (rng_calls w) key_size in
  let a_basis := drawn randint_out (S (rng_calls w)) key_size in
  let b_basis := drawn randint_out (S (S (rng_calls w))) key_size in
  forall circuit,
    bb84_circuit a_bits a_basis b_basis = Ok circuit ->
    forall i, (i < key_size)%nat ->
      nth i b_basis 0%Z = nth i a_basis 0%Z ->
      Z.b2z (measured (length (sim_runs w)) circuit repetitions i) =
      nth i a_bits 0%Z.
Proof.
  intros Hn a_bits a_basis b_basis circuit Hc i Hi Hsame.
  apply (Hn _ a_bits a_basis b_basis); unfold a_bits, a_basis, b_basis in *;
    rewrite ?drawn_length; try assumption; try reflexivity.
  apply drawn_bits.
Qed.

(** ** Concrete runs *)

Lemma no_eavesdropper_correctness_witness :
  Forall (fun c => (32 <= c <= 126)%N) (lit "Hi") /\
  (1 <= 2)%nat /\
  (forall circuit,
      bb84_circuit (drawn demo_randint 0 2) (drawn demo_randint 1 2)
        (drawn demo_randint 2 2) = Ok circuit ->
      forall i, (i < 2)%nat ->
        nth i (drawn demo_randint 2 2) 0%Z =
        nth i (drawn demo_randint 1 2) 0%Z ->
        Z.b2z (demo_simulator 0 circuit 1 i) =
        nth i (drawn demo_randint 0 2) 0%Z) /\
  exists w1 bit_msg encrypted,
    main_exchange demo_randint demo_simulator 2 false 1
      (after_prelude (lit "Hi") world0) = (Ok ([0%Z], [0%Z]), w1) /\
    [0%Z] <> [] /\
    string_to_bits (lit "Hi") = Ok bit_msg /\
    main demo_randint demo_simulator (lit "Hi") 2 false 1 world0 =
    (Ok tt,
     mkWorld (rng_calls w1) (sim_runs w1)
       (stdout w1 ++
        [Text "No interference detected!"; EncryptedBits encrypted;
         DecryptedBits bit_msg; ReceivedMessage (lit "Hi")])).
Proof.
  assert (Hmsg : Forall (fun c => (32 <= c <= 126)%N) (lit "Hi"))
    by (repeat constructor; vm_compute; discriminate).
  assert (Hsize : (1 <= 2)%nat) by lia.
  assert (Hideal : forall circuit,
             bb84_circuit (drawn demo_randint 0 2) (drawn demo_randint 1 2)
               (drawn demo_randint 2 2) = Ok circuit ->
             forall i, (i < 2)%nat ->
               nth i (drawn demo_randint 2 2) 0%Z =
               nth i (drawn demo_randint 1 2) 0%Z ->
               Z.b2z (demo_simulator 0 circuit 1 i) =
               nth i (drawn demo_randint 0 2) 0%Z).
  { intros circuit Hc i Hi Hsame. vm_compute in Hc. injection Hc as <-.
    destruct i as [|[|i]].
    - vm_compute in Hsame. discriminate Hsame.
    - reflexivity.
    - lia. }
  split; [exact Hmsg|]. split; [exact Hsize|]. split; [exact Hideal|].
  destruct (no_eavesdropper_correctness demo_randint demo_simulator
              (lit "Hi") 2 world0 Hmsg Hsize Hideal)
    as [a_key [b_key [w1 [Hex [Heq Hmain]]]]].
  assert (Hkey : a_key = [0%Z]).
  { vm_compute in Hex. injection Hex as Ha _ _. now symmetry. }
  subst b_key. subst a_key.
  assert (Hne : [0%Z] <> []) by discriminate.
  destruct (Hmain (or_introl Hne)) as [bit_msg [encrypted [Hbits Hrun]]].
  exists w1, bit_msg, encrypted.
  split; [exact Hex|]. split; [exact Hne|]. split; [exact Hbits|exact Hrun].
Defined.

(** C1 as stated fails, in two ways.  With [key_size = 1], bases that differ
    and the message [A], the channel is noiseless and there is no
    eavesdropper, yet [main] stops with [ZeroDivisionError] and prints no
    received message.  With two repetitions, on draws whose bases agree at
    one position, [main] stops with the [TypeError] of the read-out. *)
Lemma no_eavesdropper_correctness_counterexample :
  Forall (fun c => (32 <= c <= 126)%N) (lit "A") /\
  (1 <= 1)%nat /\
  noiseless demo_simulator /\
  drawn mismatch_randint 1 1 = [0%Z] /\
  drawn mismatch_randint 2 1 = [1%Z] /\
  main mismatch_randint demo_simulator (lit "A") 1 false 1 world0 =
  (Raise ZeroDivisionError,
   mkWorld 3 [([cirq.H 0; cirq.measure 0], 1%Z)]
     [InputMessage (lit "A"); BitMessage [0; 1; 0; 0; 0; 0; 0; 1]%Z;
      Text "Initiating Quantum Key Exchange"; Text "Circuit: ";
      Diagram [cirq.H 0; cirq.measure 0];
      Text "Quantum Key Exchange complete, sampling keys...\n";
      Text "No interference detected!"]) /\
  drawn demo_randint 1 2 = [1; 1]%Z /\
  drawn demo_randint 2 2 = [0; 1]%Z /\
  fst (main demo_randint demo_simulator (lit "A") 2 false 2 world0) =
  Raise TypeError.
Proof.
  split; [repeat constructor; vm_compute; discriminate|].
  split; [lia|].
  split; [apply noiseless_simulator_noiseless|].
  repeat split.
Qed.

Lemma eavesdropper_two_transmissions_witness :
  (1 <= 2)%nat /\
  exists c1 c2 a_key b_key w1,
    bb84_circuit (drawn demo_randint 0 2) (drawn demo_randint 1 2)
      (drawn demo_randint 3 2) = Ok c1 /\
    bb84_circuit (received demo_simulator 0 c1 1 2) (drawn demo_randint 3 2)
      (drawn demo_randint 2 2) = Ok c2 /\
    main_exchange demo_randint demo_simulator 2 true 1
      (after_prelude (lit "Hi") world0) = (Ok (a_key, b_key), w1) /\
    sim_runs w1 = [(c1, 1%Z); (c2, 1%Z)] /\
    rng_calls w1 = 4%nat /\
    a_key = sifted (drawn demo_randint 1 2) (drawn demo_randint 2 2)
              (drawn demo_randint 0 2) /\
    b_key = sifted (drawn demo_randint 1 2) (drawn demo_randint 2 2)
              (received demo_simulator 1 c2 1 2) /\
    sim_runs (snd (main demo_randint demo_simulator (lit "Hi") 2 true 1
                     world0)) = [(c1, 1%Z); (c2, 1%Z)].
Proof.
  assert (H : (1 <= 2)%nat) by lia.
  split; [exact H|].
  exact (eavesdropper_two_transmissions demo_randint demo_simulator
           (lit "Hi") 2 world0 H).
Defined.

(** C9 as stated fails.  With the eavesdropper flag set and two repetitions
    the first circuit is run, the read-out of its result raises [TypeError],
    and no second transmission takes place; with [key_size = 0] the
    simulator refuses the first, empty, circuit with [ValueError]. *)
Lemma eavesdropper_two_transmissions_counterexample :
  main_exchange demo_randint demo_simulator 2 true 2
    (after_prelude (lit "Hi") world0) =
  (Raise TypeError,
   mkWorld 4
     [([cirq.X 0; cirq.H 0; cirq.H 1; cirq.measure 0; cirq.measure 1], 2%Z)]
     [InputMessage (lit "Hi");
      BitMessage [0; 1; 0; 0; 1; 0; 0; 0; 0; 1; 1; 0; 1; 0; 0; 1]%Z;
      Text "Initiating Quantum Key Exchange"; Text "Circuit 1/2: ";
      Diagram
        [cirq.X 0; cirq.H 0; cirq.H 1; cirq.measure 0; cirq.measure 1]]) /\
  fst (main demo_randint demo_simulator (lit "Hi") 2 true 2 world0) =
    Raise TypeError /\
  sim_runs (snd (main demo_randint demo_simulator (lit "Hi") 2 true 2
                   world0)) =
    [([cirq.X 0; cirq.H 0; cirq.H 1; cirq.measure 0; cirq.measure 1], 2%Z)] /\
  fst (main demo_randint demo_simulator (lit "Hi") 0 true 1 world0) =
    Raise ValueError /\
  sim_runs (snd (main demo_randint demo_simulator (lit "Hi") 0 true 1
                   world0)) = [([], 1%Z)].
Proof. repeat split. Qed.

Lemma empty_key_reaches_modulo_witness :
  main_exchange mismatch_randint demo_simulator 1 false 1
    (after_prelude (lit "hi") world0) =
  (Ok ([], []),
   snd (main_exchange mismatch_randint demo_simulator 1 false 1
          (after_prelude (lit "hi") world0))) /\
  lit "hi" <> [] /\
  exists bit_msg,
    string_to_bits (lit "hi") = Ok bit_msg /\
    xor_bits bit_msg [] = Raise ZeroDivisionError /\
    main mismatch_randint demo_simulator (lit "hi") 1 false 1 world0 =
    (Raise ZeroDivisionError,
     mkWorld 3 [([cirq.H 0; cirq.measure 0], 1%Z)]
       (stdout
          (snd (main_exchange mismatch_randint demo_simulator 1 false 1
                  (after_prelude (lit "hi") world0))) ++
        [Text "No interference detected!"])).
Proof.
  assert (Hex : main_exchange mismatch_randint demo_simulator 1 false 1
                  (after_prelude (lit "hi") world0) =
                (Ok ([], []),
                 snd (main_exchange mismatch_randint demo_simulator 1 false 1
                        (after_prelude (lit "hi") world0))))
    by reflexivity.
  assert (Hmsg : lit "hi" <> []) by discriminate.
  split; [exact Hex|]. split; [exact Hmsg|].
  exact (empty_key_reaches_modulo mismatch_randint demo_simulator
           (lit "hi") 1 false 1 world0 _ [] Hex Hmsg).
Defined.

(** C6 as stated fails: with [key_size = 1] and bases that differ the sifted
    key is empty, and [main] raises the [ZeroDivisionError] of [xor_bits]
    after printing that no interference was detected; nothing rejects the
    empty key before encryption. *)
Lemma empty_key_guard_counterexample :
  fst (main_exchange mismatch_randint demo_simulator 1 false 1
         (after_prelude (lit "hi") world0)) = Ok ([], []) /\
  xor_bits [0; 1; 1; 0; 1; 0; 0; 0; 0; 1; 1; 0; 1; 0; 0; 1]%Z [] =
    Raise ZeroDivisionError /\
  main mismatch_randint demo_simulator (lit "hi") 1 false 1 world0 =
  (Raise ZeroDivisionError,
   mkWorld 3 [([cirq.H 0; cirq.measure 0], 1%Z)]
     [InputMessage (lit "hi");
      BitMessage [0; 1; 1; 0; 1; 0; 0; 0; 0; 1; 1; 0; 1; 0; 0; 1]%Z;
      Text "Initiating Quantum Key Exchange"; Text "Circuit: ";
      Diagram [cirq.H 0; cirq.measure 0];
      Text "Quantum Key Exchange complete, sampling keys...\n";
      Text "No interference detected!"]).
Proof. repeat split. Qed.

Lemma interference_not_an_error_witness :
  main_exchange demo_randint demo_simulator 2 true 1
    (after_prelude (lit "Hi") world0) =
  (Ok ([0%Z], [1%Z]),
   snd (main_exchange demo_randint demo_simulator 2 true 1
          (after_prelude (lit "Hi") world0))) /\
  [0%Z] <> [1%Z] /\
  exists bit_msg encrypted decrypted received_msg,
    string_to_bits (lit "Hi") = Ok bit_msg /\
    xor_bits bit_msg [0%Z] = Ok encrypted /\
    xor_bits encrypted [1%Z] = Ok decrypted /\
    bits_to_string decrypted = Ok received_msg /\
    main demo_randint demo_simulator (lit "Hi") 2 true 1 world0 =
    (Ok tt,
     mkWorld 4
       (sim_runs
          (snd (main_exchange demo_randint demo_simulator 2 true 1
                  (after_prelude (lit "Hi") world0))))
       (stdout
          (snd (main_exchange demo_randint demo_simulator 2 true 1
                  (after_prelude (lit "Hi") world0))) ++
        [Text interference_warning; EncryptedBits encrypted;
         DecryptedBits decrypted; ReceivedMessage received_msg])).
Proof.
  assert (Hex : main_exchange demo_randint demo_simulator 2 true 1
                  (after_prelude (lit "Hi") world0) =
                (Ok ([0%Z], [1%Z]),
                 snd (main_exchange demo_randint demo_simulator 2 true 1
                        (after_prelude (lit "Hi") world0))))
    by reflexivity.
  assert (Hne : [0%Z] <> [1%Z]) by discriminate.
  split; [exact Hex|]. split; [exact Hne|].
  exact (interference_not_an_error demo_randint demo_simulator
           (lit "Hi") 2 true 1 world0 _ [0%Z] [1%Z] Hex Hne).
Defined.

(** * Further properties of the code *)

(** ** The XOR cipher: failure, and composition of keys *)

(** X1: [xor_bits] fails in one way only: with an empty key and a non-empty
    input it raises [ZeroDivisionError]; in every other case, an empty input
    with an empty key included, it returns the stream. *)
Theorem xor_bits_outcome (bits key : list Z) :
  xor_bits bits key =
  match key, bits with
  | [], _ :: _ => Raise ZeroDivisionError
  | _, _ => Ok (xor_stream bits key)
  end.
Proof.
  destruct key as [|k key].
  - destruct bits as [|b bits]; reflexivity.
  - now apply xor_bits_stream.
Qed.

Lemma xor_stream_nth_key (k1 k2 : list Z) (i : nat) :
  k1 <> [] -> length k1 = length k2 ->
  nth (i mod length k1) (xor_stream k1 k2) 0%Z =
  Z.lxor (nth (i mod length k1) k1 0%Z) (nth (i mod length k2) k2 0%Z).
Proof.
  intros Hne Hlen.
  assert (Hk : (0 < length k1)%nat) by (destruct k1; simpl; [congruence|lia]).
  rewrite xor_stream_nth by (apply Nat.mod_upper_bound; lia).
  rewrite <- Hlen. now rewrite Nat.Div0.mod_mod.
Qed.

(** X2: encrypting with one key and then with another of the same length is
    encrypting once with the XOR of the two keys. *)
Theorem xor_bits_two_keys (bits k1 k2 : list Z) :
  k1 <> [] -> length k1 = length k2 ->
  exists c k12,
    xor_bits bits k1 = Ok c /\
    xor_bits k1 k2 = Ok k12 /\
    length k12 = length k1 /\
    xor_bits c k2 = xor_bits bits k12.
Proof.
  intros Hne Hlen.
  assert (Hne2 : k2 <> []) by (destruct k1, k2; simpl in *; congruence).
  exists (xor_stream bits k1), (xor_stream k1 k2).
  split; [now apply xor_bits_stream|].
  split; [now apply xor_bits_stream|].
  split; [apply xor_stream_length|].
  assert (Hne12 : xor_stream k1 k2 <> []).
  { intros E. apply (f_equal (@length Z)) in E.
    rewrite xor_stream_length in E. destruct k1; simpl in E; congruence. }
  rewrite !xor_bits_stream by assumption. f_equal.
  unfold xor_stream at 1 3. rewrite !xor_stream_length.
  apply map_ext_in. intros i Hi. apply in_seq in Hi.
  rewrite xor_stream_nth by lia.
  rewrite xor_stream_nth_key by assumption.
  now rewrite Z.lxor_assoc.
Qed.

Lemma xor_bits_two_keys_witness :
  [1; 0; 1]%Z <> [] /\ length [1; 0; 1]%Z = length [0; 1; 1]%Z /\
  exists c k12,
    xor_bits [1; 1; 0; 0; 1; 0; 1]%Z [1; 0; 1]%Z = Ok c /\
    xor_bits [1; 0; 1]%Z [0; 1; 1]%Z = Ok k12 /\
    length k12 = length [1; 0; 1]%Z /\
    xor_bits c [0; 1; 1]%Z = xor_bits [1; 1; 0; 0; 1; 0; 1]%Z k12.
Proof.
  assert (Hne : [1; 0; 1]%Z <> []) by discriminate.
  assert (Hlen : length [1; 0; 1]%Z = length [0; 1; 1]%Z) by reflexivity.
  split; [exact Hne|]. split; [exact Hlen|].
  exact (xor_bits_two_keys [1; 1; 0; 0; 1; 0; 1]%Z _ _ Hne Hlen).
Defined.

(** X3: two encryptions commute, whatever the lengths of the two keys. *)
Theorem xor_bits_commute (bits k1 k2 : list Z) :
  k1 <> [] -> k2 <> [] ->
  exists c1 c2 out,
    xor_bits bits k1 = Ok c1 /\ xor_bits c1 k2 = Ok out /\
    xor_bits bits k2 = Ok c2 /\ xor_bits c2 k1 = Ok out.
Proof.
  intros H1 H2.
  exists (xor_stream bits k1), (xor_stream bits k2),
    (xor_stream (xor_stream bits k1) k2).
  split; [now apply xor_bits_stream|].
  split; [now apply xor_bits_stream|].
  split; [now apply xor_bits_stream|].
  rewrite xor_bits_stream by exact H1. f_equal.
  unfold xor_stream at 1 3. rewrite !xor_stream_length.
  apply map_ext_in. intros i Hi. apply in_seq in Hi.
  rewrite !xor_stream_nth by lia.
  rewrite !Z.lxor_assoc. f_equal. apply Z.lxor_comm.
Qed.

Lemma xor_bits_commute_witness :
  [1; 0]%Z <> [] /\ [0; 1; 1]%Z <> [] /\
  exists c1 c2 out,
    xor_bits [1; 1; 0; 0; 1]%Z [1; 0]%Z = Ok c1 /\
    xor_bits c1 [0; 1; 1]%Z = Ok out /\
    xor_bits [1; 1; 0; 0; 1]%Z [0; 1; 1]%Z = Ok c2 /\
    xor_bits c2 [1; 0]%Z = Ok out.
Proof.
  assert (H1 : [1; 0]%Z <> []) by discriminate.
  assert (H2 : [0; 1; 1]%Z <> []) by discriminate.
  split; [exact H1|]. split; [exact H2|].
  exact (xor_bits_commute [1; 1; 0; 0; 1]%Z _ _ H1 H2).
Defined.

Lemma combine_nth_lt {A B} (l : list A) (l' : list B) (i : nat) (x : A)
  (y : B) :
  (i < length l)%nat -> (i < length l')%nat ->
  nth i (combine l l') (x, y) = (nth i l x, nth i l' y).
Proof.
  revert l' i; induction l as [|a l IH]; intros [|b l'] [|i] Hl Hl';
    simpl in *; try lia; [reflexivity|].
  apply IH; lia.
Qed.

(** X4: a key at least as long as the input is never repeated: only its first
    [len(bits)] elements are used, one per input position. *)
Theorem xor_bits_long_key (bits key : list Z) :
  bits <> [] -> (length bits <= length key)%nat ->
  xor_bits bits key = xor_bits bits (firstn (length bits) key) /\
  xor_bits bits key =
  Ok (List.map (fun p => Z.lxor (fst p) (snd p)) (combine bits key)).
Proof.
  intros Hb Hlen.
  assert (Hk : key <> [])
    by (destruct bits, key; simpl in *; congruence || lia).
  assert (Hf : firstn (length bits) key <> []).
  { destruct bits, key; simpl in *; congruence || lia. }
  assert (Hstream : xor_stream bits key =
                    List.map (fun p => Z.lxor (fst p) (snd p))
                      (combine bits key)).
  { apply nth_ext with (d := 0%Z) (d' := Z.lxor 0 0).
    - rewrite xor_stream_length, length_map, length_combine. lia.
    - intros i Hi. rewrite xor_stream_length in Hi.
      rewrite xor_stream_nth by exact Hi.
      rewrite (map_nth (fun p => Z.lxor (fst p) (snd p)) _ (0%Z, 0%Z)).
      rewrite combine_nth_lt by lia. cbn [fst snd].
      now rewrite Nat.mod_small by lia. }
  split.
  - rewrite !xor_bits_stream by assumption. f_equal.
    unfold xor_stream. apply map_ext_in. intros i Hi. apply in_seq in Hi.
    rewrite length_firstn, Nat.min_l by lia.
    rewrite Nat.mod_small by lia. rewrite Nat.mod_small by lia.
    f_equal. rewrite <- (firstn_skipn (length bits) key) at 1.
    rewrite app_nth1; [reflexivity|]. rewrite length_firstn. lia.
  - rewrite xor_bits_stream by exact Hk. now rewrite Hstream.
Qed.

Lemma xor_bits_long_key_witness :
  [1; 1; 0]%Z <> [] /\ (length [1; 1; 0]%Z <= length [0; 1; 1; 1]%Z)%nat /\
  xor_bits [1; 1; 0]%Z [0; 1; 1; 1]%Z =
    xor_bits [1; 1; 0]%Z (firstn (length [1; 1; 0]%Z) [0; 1; 1; 1]%Z) /\
  xor_bits [1; 1; 0]%Z [0; 1; 1; 1]%Z =
    Ok (List.map (fun p => Z.lxor (fst p) (snd p))
          (combine [1; 1; 0]%Z [0; 1; 1; 1]%Z)).
Proof.
  assert (Hb : [1; 1; 0]%Z <> []) by discriminate.
  assert (Hl : (length [1; 1; 0]%Z <= length [0; 1; 1; 1]%Z)%nat)
    by (simpl; lia).
  split; [exact Hb|]. split; [exact Hl|].
  exact (xor_bits_long_key _ _ Hb Hl).
Defined.

(** ** The text codec: composition, the other round trip, wide characters *)

Lemma comprehension_app {A B} (f : A -> result B) (l1 l2 : list A) :
  comprehension f (l1 ++ l2) =
  (ys1 <- comprehension f l1 ;; ys2 <- comprehension f l2 ;; Ok (ys1 ++ ys2)).
Proof.
  induction l1 as [|x l1 IH]; simpl.
  - now destruct (comprehension f l2).
  - destruct (f x) as [y|e]; simpl; [|reflexivity].
    rewrite IH. destruct (comprehension f l1) as [ys1|e]; simpl; [|reflexivity].
    now destruct (comprehension f l2).
Qed.

Lemma binary_value_shift (l : list Z) (acc : Z) :
  binary_value l acc =
  (acc * 2 ^ Z.of_nat (length l) + binary_value l 0)%Z.
Proof.
  revert acc; induction l as [|d l IH]; intros acc.
  - simpl. lia.
  - cbn [binary_value fold_left length].
    change (fold_left (fun a d => (2 * a + d)%Z) l) with (binary_value l).
    rewrite (IH (2 * acc + d)%Z), (IH (2 * 0 + d)%Z).
    rewrite Nat2Z.inj_succ, Z.pow_succ_r by lia. lia.
Qed.

(** Two groups of binary digits of one length with one value are equal. *)
Lemma binary_value_inj (l1 l2 : list Z) :
  Forall is_bit l1 -> Forall is_bit l2 -> length l1 = length l2 ->
  binary_value l1 0 = binary_value l2 0 -> l1 = l2.
Proof.
  intros H1; revert l2; induction H1 as [|b1 l1 Hb1 H1 IH];
    intros l2 H2 Hlen Hval; destruct H2 as [|b2 l2 Hb2 H2];
    simpl in Hlen; try discriminate; [reflexivity|].
  injection Hlen as Hlen.
  cbn [binary_value fold_left] in Hval.
  change (fold_left (fun a d => (2 * a + d)%Z) l1) with (binary_value l1)
    in Hval.
  change (fold_left (fun a d => (2 * a + d)%Z) l2) with (binary_value l2)
    in Hval.
  rewrite (binary_value_shift l1), (binary_value_shift l2), <- Hlen in Hval.
  pose proof (binary_value_bound l1 0%Z H1 ltac:(lia)) as B1.
  pose proof (binary_value_bound l2 0%Z H2 ltac:(lia)) as B2.
  rewrite <- Hlen in B2.
  set (p := (2 ^ Z.of_nat (length l1))%Z) in *.
  assert (b1 = b2 /\ binary_value l1 0 = binary_value l2 0) as [-> Hv].
  { destruct Hb1 as [->| ->], Hb2 as [->| ->]; split; lia. }
  f_equal. now apply IH.
Qed.

Lemma firstn_plus {A} (a b : nat) (l : list A) :
  firstn (a + b) l = firstn a l ++ firstn b (skipn a l).
Proof.
  revert l; induction a as [|a IH]; intros [|x l]; simpl;
    rewrite ?firstn_nil; try reflexivity.
  now rewrite IH.
Qed.

(** Consecutive groups of 8 put together give the part they were cut from. *)
Lemma concat_slices {A} (n : nat) (l : list A) :
  (n * 8 <= length l)%nat ->
  concat (List.map (fun b => slice l (b * 8) ((b + 1) * 8)) (range n)) =
  firstn (n * 8) l.
Proof.
  unfold range. revert l; induction n as [|n IH]; intros l Hlen;
    [reflexivity|].
  cbn [seq List.map concat]. rewrite <- seq_shift, map_map.
  replace (S n * 8)%nat with (8 + n * 8)%nat by lia.
  rewrite firstn_plus.
  rewrite <- (IH (skipn 8 l)) by (rewrite length_skipn; lia).
  f_equal. f_equal. apply map_ext. intros b. unfold slice.
  replace ((S b + 1) * 8 - S b * 8)%nat with ((b + 1) * 8 - b * 8)%nat by lia.
  rewrite skipn_skipn. f_equal. f_equal. lia.
Qed.

Lemma char_bits_of_value (byte : list Z) :
  Forall is_bit byte -> length byte = 8%nat ->
  char_bits (Z.to_N (binary_value byte 0)) = byte.
Proof.
  intros Hb Hlen.
  pose proof (binary_value_bound byte 0%Z Hb ltac:(lia)) as Hv.
  rewrite Hlen in Hv. simpl in Hv.
  apply binary_value_inj.
  - apply char_bits_bits.
  - exact Hb.
  - rewrite char_bits_length, Hlen. apply padded_length_small. lia.
  - rewrite char_bits_value. apply Z2N.id. lia.
Qed.

(** X6: [string_to_bits] never raises and gives only zeros and ones, whatever
    the code points; the encoding of a concatenation is the concatenation of
    the encodings. *)
Theorem string_to_bits_app (s1 s2 : str) :
  exists b1 b2,
    string_to_bits s1 = Ok b1 /\
    string_to_bits s2 = Ok b2 /\
    string_to_bits (s1 ++ s2) = Ok (b1 ++ b2) /\
    Forall is_bit (b1 ++ b2).
Proof.
  exists (encoded s1), (encoded s2).
  split; [apply string_to_bits_groups|].
  split; [apply string_to_bits_groups|].
  split.
  - rewrite string_to_bits_groups. unfold encoded.
    now rewrite map_app, concat_app.
  - apply Forall_app. split; apply encoded_bits.
Qed.

(** X7: the round trip in the other direction: a sequence of zeros and ones
    whose length is a multiple of 8 decodes to a string of code points below
    256 that encodes back to the same sequence. *)
Theorem bits_round_trip (bits : list Z) :
  Forall is_bit bits -> (length bits mod 8 = 0)%nat ->
  exists s,
    bits_to_string bits = Ok s /\
    Forall (fun c => (c <= 255)%N) s /\
    string_to_bits s = Ok bits.
Proof.
  intros Hbits Hmod. exists (decode_bits bits).
  pose proof (Nat.div_mod_eq (length bits) 8) as Hdm.
  split; [now apply bits_to_string_decode|].
  assert (Hslice : forall b, (b < length bits / 8)%nat ->
             Forall is_bit (slice bits (b * 8) ((b + 1) * 8)) /\
             length (slice bits (b * 8) ((b + 1) * 8)) = 8%nat).
  { intros b Hb. split.
    - apply Forall_firstn, Forall_skipn, Hbits.
    - now apply slice_full_length. }
  split.
  - unfold decode_bits. apply Forall_map, Forall_forall. intros b Hb.
    apply in_seq in Hb. destruct (Hslice b ltac:(lia)) as [Hs Hl].
    pose proof (binary_value_bound _ 0%Z Hs ltac:(lia)) as Hv.
    rewrite Hl in Hv. simpl in Hv. lia.
  - rewrite string_to_bits_groups. f_equal.
    unfold decode_bits. rewrite map_map.
    transitivity (firstn (length bits / 8 * 8) bits);
      [|apply firstn_all2; lia].
    rewrite <- concat_slices by lia.
    f_equal. apply map_ext_in. intros b Hb. apply in_seq in Hb.
    destruct (Hslice b ltac:(lia)) as [Hs Hl].
    now apply char_bits_of_value.
Qed.

Lemma bits_round_trip_witness :
  Forall is_bit [0; 1; 0; 0; 1; 0; 0; 0; 0; 1; 1; 0; 1; 0; 0; 1]%Z /\
  (length [0; 1; 0; 0; 1; 0; 0; 0; 0; 1; 1; 0; 1; 0; 0; 1]%Z mod 8 = 0)%nat /\
  exists s,
    bits_to_string [0; 1; 0; 0; 1; 0; 0; 0; 0; 1; 1; 0; 1; 0; 0; 1]%Z = Ok s /\
    Forall (fun c => (c <= 255)%N) s /\
    string_to_bits s = Ok [0; 1; 0; 0; 1; 0; 0; 0; 0; 1; 1; 0; 1; 0; 0; 1]%Z.
Proof.
  assert (Hb : Forall is_bit
                 [0; 1; 0; 0; 1; 0; 0; 0; 0; 1; 1; 0; 1; 0; 0; 1]%Z).
  { repeat constructor; (now left) || (now right). }
  assert (Hm : (length [0; 1; 0; 0; 1; 0; 0; 0; 0; 1; 1; 0; 1; 0; 0; 1]%Z
                mod 8 = 0)%nat) by reflexivity.
  split; [exact Hb|]. split; [exact Hm|].
  exact (bits_round_trip _ Hb Hm).
Defined.

(** ** The decoder on a sequence that does not end at a group boundary *)

Lemma string_to_bits_decode (bits : list Z) :
  Forall is_bit bits -> (length bits mod 8 = 0)%nat ->
  string_to_bits (decode_bits bits) = Ok bits.
Proof.
  intros Hbits Hmod.
  pose proof (Nat.div_mod_eq (length bits) 8) as Hdm.
  rewrite string_to_bits_groups. f_equal.
  unfold decode_bits. rewrite map_map.
  transitivity (firstn (length bits / 8 * 8) bits);
    [|apply firstn_all2; lia].
  rewrite <- concat_slices by lia.
  f_equal. apply map_ext_in. intros b Hb. apply in_seq in Hb.
  apply char_bits_of_value.
  - apply Forall_firstn, Forall_skipn, Hbits.
  - apply slice_full_length. lia.
Qed.

(** A whole group, element by element. *)
Lemma slice_group (bits : list Z) (b : nat) :
  slice bits (b * 8) ((b + 1) * 8) =
  firstn 8
    [nth (8 * b) bits 0%Z; nth (8 * b + 1) bits 0%Z;
     nth (8 * b + 2) bits 0%Z; nth (8 * b + 3) bits 0%Z;
     nth (8 * b + 4) bits 0%Z; nth (8 * b + 5) bits 0%Z;
     nth (8 * b + 6) bits 0%Z; nth (8 * b + 7) bits 0%Z] \/
  (length bits < (b + 1) * 8)%nat.
Proof.
  destruct (Nat.lt_ge_cases (length bits) ((b + 1) * 8)) as [Hlt|Hge];
    [now right|left].
  apply nth_ext with (d := 0%Z) (d' := 0%Z).
  - unfold slice. rewrite length_firstn, length_skipn. cbn [firstn length].
    lia.
  - intros j Hj. unfold slice in *.
    rewrite length_firstn, length_skipn in Hj.
    rewrite nth_firstn, nth_skipn.
    replace (j <? (b + 1) * 8 - b * 8)%nat with true
      by (symmetry; apply Nat.ltb_lt; lia).
    replace (b * 8 + j)%nat with (8 * b + j)%nat by lia.
    do 8 (destruct j as [|j];
          [cbn [firstn nth]; rewrite ?Nat.add_0_r; reflexivity|]).
    lia.
Qed.

(** C10: when the length of a bit sequence is not a multiple of 8,
    [bits_to_string] raises nothing and decodes the first
    [8 * floor(length / 8)] bits into [floor(length / 8)] characters, the
    trailing [length mod 8] bits being ignored: character [b] has as code
    point the binary value of bits [8 * b] to [8 * b + 7], the result
    encodes back to exactly those first bits, and it does not change when
    the trailing bits are removed or replaced; fewer than 8 bits decode to
    the empty string. *)
Theorem bits_to_string_ignores_tail (bits : list Z) :
  Forall is_bit bits ->
  (length bits mod 8 <> 0)%nat ->
  exists s,
    bits_to_string bits = Ok s /\
    length s = (length bits / 8)%nat /\
    (forall b, (b < length bits / 8)%nat ->
       Z.of_N (nth b s 0%N) =
       (128 * nth (8 * b) bits 0 + 64 * nth (8 * b + 1) bits 0 +
        32 * nth (8 * b + 2) bits 0 + 16 * nth (8 * b + 3) bits 0 +
        8 * nth (8 * b + 4) bits 0 + 4 * nth (8 * b + 5) bits 0 +
        2 * nth (8 * b + 6) bits 0 + nth (8 * b + 7) bits 0)%Z) /\
    string_to_bits s = Ok (firstn (8 * (length bits / 8)) bits) /\
    bits_to_string (firstn (8 * (length bits / 8)) bits) = Ok s /\
    (forall tail,
       (length tail < 8)%nat ->
       bits_to_string (firstn (8 * (length bits / 8)) bits ++ tail) = Ok s) /\
    ((length bits < 8)%nat -> s = []).
Proof.
  intros Hbits _. exists (decode_bits bits).
  pose proof (Nat.div_mod_eq (length bits) 8) as Hdm.
  pose proof (Nat.mod_upper_bound (length bits) 8 ltac:(discriminate)) as Hm.
  set (n := (length bits / 8)%nat) in *.
  assert (Htail : forall tail,
             (length tail < 8)%nat ->
             bits_to_string (firstn (8 * n) bits ++ tail) =
             Ok (decode_bits bits)).
  { intros tail Ht. unfold bits_to_string.
    assert (Hlen : (length (firstn (8 * n) bits ++ tail) / 8 = n)%nat).
    { rewrite length_app, length_firstn, Nat.min_l by lia.
      rewrite Nat.mul_comm, Nat.div_add_l, Nat.div_small by lia. lia. }
    rewrite Hlen.
    pose proof (bits_to_string_decode _ Hbits) as Hd.
    unfold bits_to_string in Hd. fold n in Hd. rewrite <- Hd.
    f_equal. apply for_each_ext. intros chars b Hb. apply in_seq in Hb.
    assert (Hsl : slice (firstn (8 * n) bits ++ tail) (b * 8) ((b + 1) * 8) =
                  slice bits (b * 8) ((b + 1) * 8)).
    { unfold slice.
      rewrite <- (firstn_skipn (8 * n) bits) at 2.
      rewrite !skipn_app, !firstn_app.
      rewrite !length_skipn, length_firstn, Nat.min_l by lia.
      replace ((b + 1) * 8 - b * 8 - (8 * n - b * 8))%nat with 0%nat by lia.
      now rewrite !firstn_O. }
    now rewrite Hsl. }
  assert (Hprefix : bits_to_string (firstn (8 * n) bits) =
                    Ok (decode_bits bits)).
  { rewrite <- (app_nil_r (firstn _ _)). apply Htail. simpl. lia. }
  assert (Hpb : Forall is_bit (firstn (8 * n) bits))
    by now apply Forall_firstn.
  assert (Hpl : length (firstn (8 * n) bits) = (8 * n)%nat)
    by (rewrite length_firstn; lia).
  split; [now apply bits_to_string_decode|].
  split; [apply decode_bits_length|].
  split.
  { intros b Hb. unfold decode_bits. fold n.
    rewrite (nth_indep _ 0%N
               (Z.to_N (binary_value (slice bits (0 * 8) ((0 + 1) * 8)) 0)))
      by (unfold range; rewrite length_map, length_seq; exact Hb).
    rewrite (map_nth
               (fun b => Z.to_N
                           (binary_value
                              (slice bits (b * 8) ((b + 1) * 8)) 0))).
    unfold range. rewrite seq_nth by exact Hb. cbn [Nat.add].
    assert (Hs : Forall is_bit (slice bits (b * 8) ((b + 1) * 8)))
      by (apply Forall_firstn, Forall_skipn, Hbits).
    pose proof (binary_value_bound _ 0%Z Hs ltac:(lia)) as Hv.
    rewrite Z2N.id by lia.
    destruct (slice_group bits b) as [-> | Hshort]; [|lia].
    unfold binary_value. cbn [firstn fold_left]. lia. }
  split.
  { rewrite bits_to_string_decode in Hprefix by exact Hpb.
    injection Hprefix as <-.
    apply string_to_bits_decode; [exact Hpb|].
    rewrite Hpl, Nat.mul_comm. apply Nat.Div0.mod_mul. }
  split; [exact Hprefix|].
  split; [exact Htail|].
  intros Hshort. unfold decode_bits. fold n.
  replace n with 0%nat by lia. reflexivity.
Qed.

Lemma bits_to_string_ignores_tail_witness :
  Forall is_bit [0; 1; 0; 0; 1; 0; 0; 0; 1; 1; 1]%Z /\
  (length [0; 1; 0; 0; 1; 0; 0; 0; 1; 1; 1]%Z mod 8 <> 0)%nat /\
  exists s,
    bits_to_string [0; 1; 0; 0; 1; 0; 0; 0; 1; 1; 1]%Z = Ok s /\
    length s = 1%nat /\
    (forall b, (b < 1)%nat ->
       Z.of_N (nth b s 0%N) =
       (128 * nth (8 * b) [0; 1; 0; 0; 1; 0; 0; 0; 1; 1; 1] 0 +
        64 * nth (8 * b + 1) [0; 1; 0; 0; 1; 0; 0; 0; 1; 1; 1] 0 +
        32 * nth (8 * b + 2) [0; 1; 0; 0; 1; 0; 0; 0; 1; 1; 1] 0 +
        16 * nth (8 * b + 3) [0; 1; 0; 0; 1; 0; 0; 0; 1; 1; 1] 0 +
        8 * nth (8 * b + 4) [0; 1; 0; 0; 1; 0; 0; 0; 1; 1; 1] 0 +
        4 * nth (8 * b + 5) [0; 1; 0; 0; 1; 0; 0; 0; 1; 1; 1] 0 +
        2 * nth (8 * b + 6) [0; 1; 0; 0; 1; 0; 0; 0; 1; 1; 1] 0 +
        nth (8 * b + 7) [0; 1; 0; 0; 1; 0; 0; 0; 1; 1; 1] 0)%Z) /\
    string_to_bits s = Ok [0; 1; 0; 0; 1; 0; 0; 0]%Z /\
    bits_to_string [0; 1; 0; 0; 1; 0; 0; 0]%Z = Ok s /\
    (forall tail,
       (length tail < 8)%nat ->
       bits_to_string ([0; 1; 0; 0; 1; 0; 0; 0]%Z ++ tail) = Ok s) /\
    ((11 < 8)%nat -> s = []).
Proof.
  assert (Hb : Forall is_bit [0; 1; 0; 0; 1; 0; 0; 0; 1; 1; 1]%Z).
  { repeat constructor; (now left) || (now right). }
  assert (Hm : (length [0; 1; 0; 0; 1; 0; 0; 0; 1; 1; 1]%Z mod 8 <> 0)%nat).
  { simpl. discriminate. }
  split; [exact Hb|]. split; [exact Hm|].
  exact (bits_to_string_ignores_tail _ Hb Hm).
Defined.

Lemma padded_length_16 (c : N) :
  (32768 <= c < 65536)%N -> length (padded c) = 16%nat.
Proof.
  intros Hc. unfold padded, slice_from, bin, ord. cbn [skipn].
  destruct c as [|p]; [lia|].
  rewrite length_app, length_skipn, bin_pos_length.
  assert (Pos.size_nat p <= 16)%nat by (apply size_nat_le; simpl; lia).
  assert (~ (Pos.size_nat p <= 15)%nat) by (rewrite size_nat_le; simpl; lia).
  cbn [length lit List.map String.list_ascii_of_string]. lia.
Qed.

(** X8: the codec is not injective beyond code point 255: a character
    [256 * a + b] with [128 <= a <= 255] and [b <= 255] is encoded as the
    same 16 bits as the two characters [a], [b], and the decoder gives those
    two characters back. *)
Theorem wide_character_splits (a b : N) :
  (128 <= a <= 255)%N -> (b <= 255)%N ->
  exists bits,
    string_to_bits [(256 * a + b)%N] = Ok bits /\
    string_to_bits [a; b] = Ok bits /\
    length bits = 16%nat /\
    bits_to_string bits = Ok [a; b].
Proof.
  intros Ha Hb. exists (char_bits a ++ char_bits b).
  assert (Hla : length (char_bits a) = 8%nat)
    by (rewrite char_bits_length; apply padded_length_small; lia).
  assert (Hlb : length (char_bits b) = 8%nat)
    by (rewrite char_bits_length; apply padded_length_small; lia).
  assert (Hsplit : char_bits (256 * a + b) = char_bits a ++ char_bits b).
  { apply binary_value_inj.
    - apply char_bits_bits.
    - apply Forall_app; split; apply char_bits_bits.
    - rewrite char_bits_length, padded_length_16 by lia.
      rewrite length_app, Hla, Hlb. reflexivity.
    - rewrite char_bits_value, binary_value_app.
      rewrite (binary_value_shift (char_bits b)), !char_bits_value, Hlb.
      change (2 ^ Z.of_nat 8)%Z with 256%Z. lia. }
  assert (Hab : string_to_bits [a; b] = Ok (char_bits a ++ char_bits b)).
  { rewrite string_to_bits_groups. cbn [List.map concat].
    now rewrite app_nil_r. }
  split.
  { rewrite string_to_bits_groups. cbn [List.map concat].
    now rewrite app_nil_r, Hsplit. }
  split; [exact Hab|].
  split; [rewrite length_app, Hla, Hlb; reflexivity|].
  rewrite bits_to_string_decode
    by (apply Forall_app; split; apply char_bits_bits).
  f_equal.
  replace (char_bits a ++ char_bits b)
    with (concat (List.map char_bits [a; b]))
    by (cbn [List.map concat]; now rewrite app_nil_r).
  apply decode_groups. repeat constructor; lia.
Qed.

Lemma wide_character_splits_witness :
  (128 <= 128 <= 255)%N /\ (65 <= 255)%N /\
  exists bits,
    string_to_bits [(256 * 128 + 65)%N] = Ok bits /\
    string_to_bits [128; 65]%N = Ok bits /\
    length bits = 16%nat /\
    bits_to_string bits = Ok [128; 65]%N.
Proof.
  assert (Ha : (128 <= 128 <= 255)%N) by (split; vm_compute; discriminate).
  assert (Hb : (65 <= 255)%N) by (vm_compute; discriminate).
  split; [exact Ha|]. split; [exact Hb|].
  exact (wide_character_splits 128 65 Ha Hb).
Defined.

(** ** The decoder on arbitrary integers *)

Lemma comprehension_ext_in {A B} (f g : A -> result B) (l : list A) :
  (forall x, In x l -> f x = g x) -> comprehension f l = comprehension g l.
Proof.
  induction l as [|x l IH]; intros Hfg; simpl; [reflexivity|].
  rewrite (Hfg x (or_introl eq_refl)), IH; [reflexivity|].
  intros y Hy. apply Hfg. now right.
Qed.

Lemma comprehension_map {A B C} (f : B -> result C) (h : A -> B)
  (l : list A) :
  comprehension f (List.map h l) = comprehension (fun x => f (h x)) l.
Proof. induction l as [|x l IH]; simpl; [reflexivity|]. now rewrite IH. Qed.

(** Every element of the list either yields [g x] or raises [e]: the
    comprehension yields all of them, or raises [e]. *)
Lemma comprehension_guarded {A B} (ok : A -> bool) (g : A -> B) (e : exn)
  (f : A -> result B) (l : list A) :
  (forall x, In x l -> f x = if ok x then Ok (g x) else Raise e) ->
  comprehension f l = if forallb ok l then Ok (List.map g l) else Raise e.
Proof.
  induction l as [|x l IH]; intros Hf; simpl; [reflexivity|].
  rewrite (Hf x (or_introl eq_refl)).
  destruct (ok x); simpl; [|reflexivity].
  rewrite IH by (intros y Hy; apply Hf; now right).
  now destruct (forallb ok l).
Qed.

Lemma bits_to_string_groups (bits : list Z) :
  bits_to_string bits =
  (yss <- comprehension
            (fun b => decode_group (slice bits (b * 8) ((b + 1) * 8)))
            (range (length bits / 8)) ;;
   Ok (concat yss)).
Proof.
  unfold bits_to_string.
  rewrite for_each_extend with
    (f := fun b => decode_group (slice bits (b * 8) ((b + 1) * 8))).
  - now destruct (comprehension _ _).
  - intros acc b. unfold decode_group.
    destruct (int_base2 _) as [v|e]; simpl; [|reflexivity].
    destruct (chr v); reflexivity.
Qed.

Lemma slice_app_left {A} (l1 l2 : list A) (a b : nat) :
  (b <= length l1)%nat -> slice (l1 ++ l2) a b = slice l1 a b.
Proof.
  intros Hb. unfold slice. rewrite skipn_app, firstn_app, length_skipn.
  replace (b - a - (length l1 - a))%nat with 0%nat by lia.
  now rewrite firstn_O, app_nil_r.
Qed.

Lemma slice_app_right {A} (l1 l2 : list A) (a b : nat) :
  slice (l1 ++ l2) (length l1 + a) (length l1 + b) = slice l2 a b.
Proof.
  unfold slice. rewrite skipn_app, skipn_all2 by lia. cbn [app].
  replace (length l1 + b - (length l1 + a))%nat with (b - a)%nat by lia.
  replace (length l1 + a - length l1)%nat with a by lia. reflexivity.
Qed.

Lemma seq_from (start n : nat) :
  seq start n = List.map (fun x => (start + x)%nat) (seq 0 n).
Proof.
  revert start; induction n as [|n IH]; intros start; [reflexivity|].
  cbn [seq List.map]. rewrite Nat.add_0_r. f_equal.
  rewrite (IH (S start)), <- seq_shift, map_map.
  apply map_ext. intros x. lia.
Qed.

(** X9: decoding composes over concatenation at a group boundary, errors
    included: when the length of the first part is a multiple of 8, the
    second part is decoded as if it stood alone, after the first. *)
Theorem bits_to_string_app (b1 b2 : list Z) :
  (length b1 mod 8 = 0)%nat ->
  bits_to_string (b1 ++ b2) =
  (s1 <- bits_to_string b1 ;; s2 <- bits_to_string b2 ;; Ok (s1 ++ s2)).
Proof.
  intros Hmod.
  pose proof (Nat.div_mod_eq (length b1) 8) as Hdm.
  set (n1 := (length b1 / 8)%nat) in *.
  assert (Hlen : length b1 = (n1 * 8)%nat) by lia.
  rewrite !bits_to_string_groups. fold n1.
  replace (length (b1 ++ b2) / 8)%nat with (n1 + length b2 / 8)%nat.
  2:{ rewrite length_app, Hlen. now rewrite Nat.div_add_l by discriminate. }
  unfold range. rewrite seq_app, comprehension_app. cbn [Nat.add].
  rewrite comprehension_ext_in with
    (g := fun b => decode_group (slice b1 (b * 8) ((b + 1) * 8))).
  2:{ intros b Hb. apply in_seq in Hb. rewrite slice_app_left by lia.
      reflexivity. }
  rewrite (seq_from n1), comprehension_map.
  rewrite comprehension_ext_in with
    (f := fun x => decode_group
                     (slice (b1 ++ b2) ((n1 + x) * 8) ((n1 + x + 1) * 8)))
    (g := fun b => decode_group (slice b2 (b * 8) ((b + 1) * 8))).
  2:{ intros b _. f_equal.
      replace ((n1 + b) * 8)%nat with (length b1 + b * 8)%nat by lia.
      replace ((n1 + b + 1) * 8)%nat with (length b1 + (b + 1) * 8)%nat by lia.
      apply slice_app_right. }
  repeat match goal with
    | |- context [comprehension ?f ?l] =>
        destruct (comprehension f l) as [?|?]; simpl; try reflexivity
    end.
  now rewrite concat_app.
Qed.

Lemma bits_to_string_app_witness :
  (length [0; 1; 0; 0; 1; 0; 0; 0]%Z mod 8 = 0)%nat /\
  bits_to_string
    ([0; 1; 0; 0; 1; 0; 0; 0]%Z ++ [0; 1; 1; 0; 1; 0; 0; 2; 1]%Z) =
  (s1 <- bits_to_string [0; 1; 0; 0; 1; 0; 0; 0]%Z ;;
   s2 <- bits_to_string [0; 1; 1; 0; 1; 0; 0; 2; 1]%Z ;;
   Ok (s1 ++ s2)).
Proof.
  assert (H : (length [0; 1; 0; 0; 1; 0; 0; 0]%Z mod 8 = 0)%nat)
    by reflexivity.
  split; [exact H|].
  exact (bits_to_string_app [0; 1; 0; 0; 1; 0; 0; 0]%Z
           [0; 1; 1; 0; 1; 0; 0; 2; 1]%Z H).
Defined.

Lemma str_of_int_digit (z : Z) :
  (0 <= z <= 9)%Z -> str_of_int z = [Z.to_N (48 + z)].
Proof.
  intros Hz.
  assert (Hc : (z = 0 \/ z = 1 \/ z = 2 \/ z = 3 \/ z = 4 \/ z = 5 \/
               z = 6 \/ z = 7 \/ z = 8 \/ z = 9)%Z) by lia.
  repeat (destruct Hc as [->|Hc]; try reflexivity). now subst.
Qed.

Lemma join_str_digits (byte : list Z) :
  Forall (fun z => (0 <= z <= 9)%Z) byte ->
  join (List.map str_of_int byte) =
  List.map (fun z => Z.to_N (48 + z)) byte.
Proof.
  unfold join.
  induction 1 as [|z byte Hz Hbyte IH]; cbn [List.map concat]; [reflexivity|].
  now rewrite IH, str_of_int_digit.
Qed.

Lemma parse_bin_digits (byte : list Z) (acc : Z) :
  Forall (fun z => (0 <= z <= 9)%Z) byte ->
  parse_bin (List.map (fun z => Z.to_N (48 + z)) byte) acc =
  if forallb (fun z => (z <=? 1)%Z) byte
  then Ok (binary_value byte acc)
  else Raise ValueError.
Proof.
  intros Hb; revert acc; induction Hb as [|z byte Hz Hbyte IH]; intros acc;
    [reflexivity|].
  assert (Hc : (z = 0 \/ z = 1 \/ z = 2 \/ z = 3 \/ z = 4 \/ z = 5 \/
               z = 6 \/ z = 7 \/ z = 8 \/ z = 9)%Z) by lia.
  destruct Hc as [->|[->|Hc]].
  - transitivity
      (parse_bin (List.map (fun z => Z.to_N (48 + z)) byte) (2 * acc));
      [reflexivity|].
    rewrite IH.
    change (forallb (fun z => (z <=? 1)%Z) (0%Z :: byte))
      with (forallb (fun z => (z <=? 1)%Z) byte).
    unfold binary_value. cbn [fold_left]. now rewrite Z.add_0_r.
  - transitivity
      (parse_bin (List.map (fun z => Z.to_N (48 + z)) byte) (2 * acc + 1));
      [reflexivity|].
    rewrite IH. reflexivity.
  - repeat (destruct Hc as [->|Hc]; try reflexivity). now subst.
Qed.

Lemma decode_group_digits (byte : list Z) :
  Forall (fun z => (0 <= z <= 9)%Z) byte -> length byte = 8%nat ->
  decode_group byte =
  if forallb (fun z => (z <=? 1)%Z) byte
  then Ok [Z.to_N (binary_value byte 0)]
  else Raise ValueError.
Proof.
  intros Hd Hlen. unfold decode_group.
  rewrite join_str_digits by exact Hd.
  assert (Hparse : int_base2 (List.map (fun z => Z.to_N (48 + z)) byte) =
                   parse_bin (List.map (fun z => Z.to_N (48 + z)) byte) 0).
  { destruct byte as [|z byte]; [discriminate|].
    inversion Hd as [|? ? Hz _]; subst.
    assert (Hc : (z = 0 \/ z = 1 \/ z = 2 \/ z = 3 \/ z = 4 \/ z = 5 \/
                 z = 6 \/ z = 7 \/ z = 8 \/ z = 9)%Z) by lia.
    repeat (destruct Hc as [->|Hc]; try reflexivity). now subst. }
  rewrite Hparse, parse_bin_digits by exact Hd.
  destruct (forallb (fun z => (z <=? 1)%Z) byte) eqn:Hall; [|reflexivity].
  assert (Hbits : Forall is_bit byte).
  { rewrite forallb_forall in Hall. rewrite Forall_forall in Hd.
    apply Forall_forall. intros z Hz.
    specialize (Hall z Hz). specialize (Hd z Hz). cbn beta in Hd.
    apply Z.leb_le in Hall. unfold is_bit. lia. }
  pose proof (binary_value_bound byte 0%Z Hbits ltac:(lia)) as Hv.
  rewrite Hlen in Hv. simpl in Hv. cbn [bind]. unfold chr.
  replace (Z.ltb _ (-2147483648) || Z.ltb 2147483647 _)%bool
    with false by (symmetry; apply orb_false_iff; split; lia).
  replace (Z.leb 0 _ && Z.ltb _ 1114112)%bool
    with true by (symmetry; apply andb_true_iff; split; lia).
  reflexivity.
Qed.

Lemma forallb_concat {A} (p : A -> bool) (ls : list (list A)) :
  forallb p (concat ls) = forallb (forallb p) ls.
Proof.
  induction ls as [|l ls IH]; simpl; [reflexivity|].
  now rewrite forallb_app, IH.
Qed.

Lemma forallb_map {A B} (p : B -> bool) (h : A -> B) (l : list A) :
  forallb p (List.map h l) = forallb (fun x => p (h x)) l.
Proof. induction l as [|x l IH]; simpl; [reflexivity|]. now rewrite IH. Qed.

(** X10: on a sequence of decimal digits the decoder accepts zeros and ones
    only: it returns the decoded string when every element of the groups it
    reads is 0 or 1, and raises [ValueError] as soon as one of them is a
    digit from 2 to 9.  The trailing elements after the last whole group are
    not looked at. *)
Theorem bits_to_string_digits (bits : list Z) :
  Forall (fun z => (0 <= z <= 9)%Z) bits ->
  bits_to_string bits =
  if forallb (fun z => (z <=? 1)%Z) (firstn (length bits / 8 * 8) bits)
  then Ok (decode_bits bits)
  else Raise ValueError.
Proof.
  intros Hd.
  pose proof (Nat.div_mod_eq (length bits) 8) as Hdm.
  rewrite bits_to_string_groups.
  rewrite comprehension_guarded with
    (ok := fun b => forallb (fun z => (z <=? 1)%Z)
                      (slice bits (b * 8) ((b + 1) * 8)))
    (g := fun b =>
            [Z.to_N (binary_value (slice bits (b * 8) ((b + 1) * 8)) 0)])
    (e := ValueError).
  - rewrite <- concat_slices by lia.
    rewrite forallb_concat, forallb_map.
    destruct (forallb _ (range (length bits / 8))); [|reflexivity].
    cbn [bind]. now rewrite concat_map_singleton.
  - intros b Hb. apply in_seq in Hb. apply decode_group_digits.
    + apply Forall_firstn, Forall_skipn, Hd.
    + apply slice_full_length. lia.
Qed.

Lemma bits_to_string_digits_witness :
  Forall (fun z => (0 <= z <= 9)%Z) [0; 1; 0; 0; 1; 0; 2; 0; 7]%Z /\
  bits_to_string [0; 1; 0; 0; 1; 0; 2; 0; 7]%Z =
  if forallb (fun z => (z <=? 1)%Z)
       (firstn (length [0; 1; 0; 0; 1; 0; 2; 0; 7]%Z / 8 * 8)
          [0; 1; 0; 0; 1; 0; 2; 0; 7]%Z)
  then Ok (decode_bits [0; 1; 0; 0; 1; 0; 2; 0; 7]%Z)
  else Raise ValueError.
Proof.
  assert (H : Forall (fun z => (0 <= z <= 9)%Z)
                [0; 1; 0; 0; 1; 0; 2; 0; 7]%Z)
    by (repeat constructor; lia).
  split; [exact H|].
  exact (bits_to_string_digits _ H).
Defined.

(** ** Circuits: which arguments are accepted, and the line of each qubit *)

Lemma getitem_cases (l : list Z) (i : nat) :
  getitem l i =
  if (i <? length l)%nat then Ok (nth i l 0%Z) else Raise IndexError.
Proof.
  destruct (Nat.ltb_spec i (length l)) as [Hi|Hi].
  - now apply getitem_nth.
  - unfold getitem. now rewrite (proj2 (nth_error_None l i)).
Qed.

Lemma getitem_range_cases (n i : nat) :
  getitem (range n) i = if (i <? n)%nat then Ok i else Raise IndexError.
Proof.
  destruct (Nat.ltb_spec i n) as [Hi|Hi].
  - now apply getitem_range.
  - unfold getitem, range.
    rewrite (proj2 (nth_error_None (seq 0 n) i)); [reflexivity|].
    now rewrite length_seq.
Qed.

(** Every iteration either appends [g x] or raises [e]: the loop appends all
    of them, or raises [e]. *)
Lemma for_each_guarded {A B} (ok : A -> bool) (g : A -> list B) (e : exn)
  (body : list B -> A -> result (list B)) (l : list A) :
  (forall acc x, In x l ->
     body acc x = if ok x then Ok (acc ++ g x) else Raise e) ->
  forall acc,
    for_each body l acc =
    if forallb ok l then Ok (acc ++ flat_map g l) else Raise e.
Proof.
  induction l as [|x l IH]; intros Hbody acc; simpl.
  - now rewrite app_nil_r.
  - rewrite (Hbody acc x (or_introl eq_refl)).
    destruct (ok x); cbn [bind andb]; [|reflexivity].
    rewrite IH by (intros acc' y Hy; apply Hbody; now right).
    now rewrite app_assoc.
Qed.

Lemma forallb_below (m n start : nat) :
  forallb (fun i => (i <? m)%nat) (seq start n) = (start + n <=? m)%nat
  \/ n = 0%nat.
Proof.
  revert start; induction n as [|n IH]; intros start; [now right|left].
  cbn [seq forallb]. destruct (IH (S start)) as [E| ->].
  - rewrite E.
    destruct (Nat.ltb_spec start m), (Nat.leb_spec (S start + n) m),
      (Nat.leb_spec (start + S n) m); cbn [andb]; try reflexivity; lia.
  - cbn [seq forallb]. rewrite andb_true_r.
    destruct (Nat.ltb_spec start m), (Nat.leb_spec (start + 1) m);
      try reflexivity; lia.
Qed.

Lemma forallb_range_below (m n : nat) :
  forallb (fun i => (i <? m)%nat) (range n) = (n <=? m)%nat.
Proof.
  unfold range. destruct (forallb_below m n 0) as [E| ->]; [exact E|].
  reflexivity.
Qed.

(** X11: [bb84_circuit] fails in one way only, with [IndexError]: when the
    sender's basis is shorter than the bits, or when the receiver's basis has
    a 1 at a position beyond the last qubit.  A sender's basis that is
    longer, or a receiver's basis that is shorter, or longer with no 1 beyond
    the qubits, is accepted. *)
Theorem bb84_circuit_outcome (a_bits a_basis b_basis : list Z) :
  bb84_circuit a_bits a_basis b_basis =
    (if bb84_accepts a_bits a_basis b_basis
     then Ok (bb84_ops a_bits a_basis b_basis)
     else Raise IndexError) /\
  (bb84_accepts a_bits a_basis b_basis = true <->
   (length a_bits <= length a_basis)%nat /\
   forall i, (length a_bits <= i < length b_basis)%nat ->
             nth i b_basis 0%Z <> 1%Z).
Proof.
  split.
  - unfold bb84_circuit, bb84_accepts, bb84_ops.
    rewrite comprehension_ok with (g := fun i => i) by reflexivity.
    rewrite map_id. cbn [bind].
    unfold build_b92_encoder.
    rewrite for_each_guarded with
      (ok := fun i => (i <? length a_basis)%nat)
      (g := fun i =>
              (if Z.eqb (nth i a_bits 0%Z) 1 then [cirq.X i] else []) ++
              (if Z.eqb (nth i a_basis 0%Z) 1 then [cirq.H i] else []))
      (e := IndexError).
    + rewrite forallb_range_below.
      destruct (length a_bits <=? length a_basis)%nat; cbn [bind andb];
        [|reflexivity].
      unfold build_b92_measurement.
      rewrite for_each_guarded with
        (ok := fun i => negb (Z.eqb (nth i b_basis 0%Z) 1) ||
                        (i <? length a_bits)%nat)
        (g := fun i => if Z.eqb (nth i b_basis 0%Z) 1 then [cirq.H i] else [])
        (e := IndexError).
      * destruct (forallb _ (range (length b_basis))); cbn [bind];
          [|reflexivity].
        unfold encoder_ops, measurement_ops. cbn [app].
        now rewrite <- app_assoc.
      * intros acc i Hi. apply in_seq in Hi.
        rewrite getitem_nth by lia. cbn [bind].
        destruct (Z.eqb (nth i b_basis 0%Z) 1); cbn [negb orb bind].
        -- rewrite getitem_range_cases.
           now destruct (i <? length a_bits)%nat.
        -- now rewrite app_nil_r.
    + intros acc i Hi. apply in_seq in Hi.
      rewrite getitem_nth, getitem_range by lia. cbn [bind].
      rewrite getitem_cases.
      destruct (Z.eqb (nth i a_bits 0%Z) 1); cbn [bind];
        destruct (i <? length a_basis)%nat; cbn [bind]; try reflexivity;
        destruct (Z.eqb (nth i a_basis 0%Z) 1); cbn [bind app];
        rewrite ?app_nil_r, <- ?app_assoc; reflexivity.
  - unfold bb84_accepts. rewrite andb_true_iff, Nat.leb_le, forallb_forall.
    split; intros [Hlen Hb]; (split; [exact Hlen|]).
    + intros i Hi Hone. specialize (Hb i).
      rewrite Hone in Hb. cbn in Hb.
      assert (Hin : In i (range (length b_basis))) by (apply in_seq; lia).
      apply Hb, Nat.ltb_lt in Hin. lia.
    + intros i Hi. apply in_seq in Hi.
      destruct (Z.eqb_spec (nth i b_basis 0%Z) 1) as [Hone|Hne];
        [|reflexivity].
      cbn [negb orb]. apply Nat.ltb_lt.
      destruct (Nat.lt_ge_cases i (length a_bits)) as [Hlt|Hge];
        [exact Hlt|].
      exfalso. apply (Hb i); [lia|exact Hone].
Qed.

Lemma ops_on_app (q : nat) (c1 c2 : cirq.Circuit) :
  ops_on q (c1 ++ c2) = ops_on q c1 ++ ops_on q c2.
Proof. apply filter_app. Qed.

Lemma ops_on_flat_map (g : nat -> list cirq.op) (q : nat) :
  (forall j, Forall (fun o => qubit_of o = j) (g j)) ->
  forall len start,
    ops_on q (flat_map g (seq start len)) =
    if ((start <=? q) && (q <? start + len))%nat then g q else [].
Proof.
  intros Hg.
  assert (Hsame : ops_on q (g q) = g q).
  { unfold ops_on. apply forallb_filter_id, forallb_forall.
    intros o Ho. specialize (Hg q). rewrite Forall_forall in Hg.
    rewrite (Hg o Ho). apply Nat.eqb_refl. }
  assert (Hother : forall j, j <> q -> ops_on q (g j) = []).
  { intros j Hj. unfold ops_on.
    specialize (Hg j). induction Hg as [|o l Ho Hl IH]; [reflexivity|].
    cbn [filter]. rewrite Ho, (proj2 (Nat.eqb_neq j q) Hj). exact IH. }
  induction len as [|len IH]; intros start.
  - cbn [seq flat_map].
    destruct (Nat.leb_spec start q), (Nat.ltb_spec q (start + 0));
      cbn [andb]; try reflexivity; lia.
  - cbn [seq flat_map]. rewrite ops_on_app, IH.
    destruct (Nat.eq_dec start q) as [->|Hne].
    + rewrite Hsame.
      destruct (Nat.leb_spec (S q) q), (Nat.ltb_spec q (S q + len)),
        (Nat.leb_spec q q), (Nat.ltb_spec q (q + S len));
        cbn [andb]; rewrite ?app_nil_r; try reflexivity; lia.
    + rewrite (Hother start Hne). cbn [app].
      destruct (Nat.leb_spec (S start) q), (Nat.ltb_spec q (S start + len)),
        (Nat.leb_spec start q), (Nat.ltb_spec q (start + S len));
        cbn [andb]; try reflexivity; lia.
Qed.

Lemma measure_each_flat_map (qubits : list nat) :
  cirq.measure_each qubits = flat_map (fun i => [cirq.measure i]) qubits.
Proof.
  unfold cirq.measure_each.
  induction qubits as [|x l IH]; simpl; congruence.
Qed.

(** X12: the line of each qubit in the circuit of [bb84_circuit], for sequences
    of one length: an [X] when the bit is 1, an [H] when the sender's basis
    is 1, an [H] when the receiver's basis is 1, then its measurement, which
    is its last operation and its only measurement.  No operation is on a
    qubit beyond the last one. *)
Theorem bb84_circuit_lines (a_bits a_basis b_basis : list Z) :
  length a_basis = length a_bits -> length b_basis = length a_bits ->
  exists circuit,
    bb84_circuit a_bits a_basis b_basis = Ok circuit /\
    forall q,
      ops_on q circuit =
      if (q <? length a_bits)%nat
      then (if Z.eqb (nth q a_bits 0%Z) 1 then [cirq.X q] else []) ++
           (if Z.eqb (nth q a_basis 0%Z) 1 then [cirq.H q] else []) ++
           (if Z.eqb (nth q b_basis 0%Z) 1 then [cirq.H q] else []) ++
           [cirq.measure q]
      else [].
Proof.
  intros Ha Hb. exists (bb84_ops a_bits a_basis b_basis).
  split; [now apply bb84_circuit_ops|].
  intros q. unfold bb84_ops, encoder_ops, measurement_ops, range.
  rewrite !ops_on_app, measure_each_flat_map, !ops_on_flat_map.
  - rewrite Hb. cbn [Nat.add].
    replace ((0 <=? q)%nat) with true
      by (symmetry; now apply Nat.leb_le, Nat.le_0_l).
    cbn [andb].
    destruct (q <? length a_bits)%nat; [|reflexivity].
    now rewrite <- app_assoc.
  - intros j. repeat constructor.
  - intros j. destruct (Z.eqb (nth j b_basis 0%Z) 1); repeat constructor.
  - intros j.
    destruct (Z.eqb (nth j a_bits 0%Z) 1), (Z.eqb (nth j a_basis 0%Z) 1);
      repeat constructor.
Qed.

Lemma bb84_circuit_lines_witness :
  exists circuit,
    bb84_circuit [1; 0; 1]%Z [1; 1; 0]%Z [0; 1; 0]%Z = Ok circuit /\
    forall q,
      ops_on q circuit =
      if (q <? length [1; 0; 1]%Z)%nat
      then (if Z.eqb (nth q [1; 0; 1]%Z 0%Z) 1 then [cirq.X q] else []) ++
           (if Z.eqb (nth q [1; 1; 0]%Z 0%Z) 1 then [cirq.H q] else []) ++
           (if Z.eqb (nth q [0; 1; 0]%Z 0%Z) 1 then [cirq.H q] else []) ++
           [cirq.measure q]
      else [].
Proof.
  apply (bb84_circuit_lines [1; 0; 1]%Z [1; 1; 0]%Z [0; 1; 0]%Z);
    reflexivity.
Defined.

(** ** Key sifting: which arguments are accepted, and the two extremes *)

Lemma comprehension_if_guarded {A B} (okc p okf : A -> bool) (g : A -> B)
  (e : exn) (c : A -> result bool) (f : A -> result B) (l : list A) :
  (forall x, In x l -> c x = if okc x then Ok (p x) else Raise e) ->
  (forall x, In x l -> p x = true ->
             f x = if okf x then Ok (g x) else Raise e) ->
  comprehension_if c f l =
  if forallb okc l && forallb okf (filter p l)
  then Ok (List.map g (filter p l))
  else Raise e.
Proof.
  induction l as [|x l IH]; intros Hc Hf; [reflexivity|].
  cbn [comprehension_if forallb filter].
  rewrite (Hc x (or_introl eq_refl)).
  assert (IH' : comprehension_if c f l =
                if forallb okc l && forallb okf (filter p l)
                then Ok (List.map g (filter p l)) else Raise e).
  { apply IH; intros y Hy; [apply Hc | apply Hf]; now right. }
  destruct (okc x); cbn [bind andb]; [|reflexivity].
  destruct (p x) eqn:Hp.
  - rewrite (Hf x (or_introl eq_refl) Hp). cbn [forallb].
    destruct (okf x); cbn [bind andb].
    + rewrite IH'.
      now destruct (forallb okc l && forallb okf (filter p l))%bool.
    + now rewrite andb_false_r.
  - exact IH'.
Qed.

Lemma forallb_true {A} (l : list A) : forallb (fun _ => true) l = true.
Proof. induction l as [|x l IH]; simpl; auto. Qed.

Lemma filter_contains_wider (p : nat -> bool) (n m : nat) :
  (n <= m)%nat ->
  filter (fun i => contains i (filter p (range n))) (range m) =
  filter p (range n).
Proof.
  intros Hnm. unfold range.
  replace m with (n + (m - n))%nat by lia.
  rewrite seq_app, filter_app. cbn [Nat.add].
  fold (range n). rewrite filter_contains_filter.
  rewrite <- app_nil_r. f_equal.
  rewrite <- (filter_false (seq n (m - n))).
  apply filter_ext_in. intros i Hi. apply in_seq in Hi.
  destruct (contains i (filter p (range n))) eqn:Hc; [|reflexivity].
  apply contains_In, filter_In in Hc. destruct Hc as [Hc _].
  apply in_seq in Hc. lia.
Qed.

(** X13: [sift] fails in one way only, with [IndexError]: when the receiver's
    basis is shorter than the sender's, or when a bit sequence does not
    reach a position at which the bases agree.  Otherwise it returns the
    agreeing positions below the length of the sender's basis and the two
    projections; what lies beyond, in a longer receiver's basis or in longer
    bit sequences, is ignored. *)
Theorem sift_outcome (a_bits a_basis b_bits b_basis : list Z) :
  sift a_bits a_basis b_bits b_basis =
  if sift_accepts a_bits a_basis b_bits b_basis
  then Ok (filter (same_basis a_basis b_basis) (range (length a_basis)),
           sifted a_basis b_basis a_bits, sifted a_basis b_basis b_bits)
  else Raise IndexError.
Proof.
  unfold sift, sift_accepts, sifted.
  set (good := filter (same_basis a_basis b_basis) (range (length a_basis))).
  rewrite comprehension_if_guarded with
    (okc := fun i => (i <? length b_basis)%nat)
    (p := same_basis a_basis b_basis) (okf := fun _ => true)
    (g := fun i => i) (e := IndexError).
  2:{ intros i Hi. apply in_seq in Hi.
      rewrite getitem_nth by lia. cbn [bind].
      rewrite getitem_cases.
      now destruct (i <? length b_basis)%nat. }
  2:{ reflexivity. }
  rewrite forallb_range_below, forallb_true, andb_true_r, map_id.
  fold good.
  destruct (Nat.leb_spec (length a_basis) (length b_basis)) as [Hle|Hgt];
    cbn [bind andb]; [|reflexivity].
  rewrite comprehension_if_guarded with
    (okc := fun _ => true) (p := fun i => contains i good)
    (okf := fun i => (i <? length a_bits)%nat)
    (g := fun i => nth i a_bits 0%Z) (e := IndexError).
  2:{ reflexivity. }
  2:{ intros i _ _. apply getitem_cases. }
  rewrite forallb_true. cbn [andb].
  unfold good at 1 2. rewrite filter_contains_filter. fold good.
  destruct (forallb (fun i => (i <? length a_bits)%nat) good);
    cbn [bind andb]; [|reflexivity].
  rewrite comprehension_if_guarded with
    (okc := fun _ => true) (p := fun i => contains i good)
    (okf := fun i => (i <? length b_bits)%nat)
    (g := fun i => nth i b_bits 0%Z) (e := IndexError).
  2:{ reflexivity. }
  2:{ intros i _ _. apply getitem_cases. }
  rewrite forallb_true. cbn [andb].
  unfold good at 1 2. rewrite filter_contains_wider by exact Hle. fold good.
  now destruct (forallb (fun i => (i <? length b_bits)%nat) good).
Qed.

(** X14: when the two bases are the same sequence, every position is kept and
    each key is the whole bit sequence. *)
Theorem sift_same_bases (n : nat) (a_bits b_bits basis : list Z) :
  length basis = n -> length a_bits = n -> length b_bits = n ->
  sift a_bits basis b_bits basis = Ok (range n, a_bits, b_bits).
Proof.
  intros HA Ha Hb.
  rewrite (sift_filter n) by assumption.
  assert (Hall : filter (same_basis basis basis) (range n) = range n).
  { apply forallb_filter_id, forallb_forall. intros i _.
    now apply same_basis_iff. }
  rewrite Hall. do 2 f_equal.
  - f_equal. rewrite <- Ha. apply map_nth_range_gen.
  - rewrite <- Hb. apply map_nth_range_gen.
Qed.

Lemma sift_same_bases_witness :
  sift [1; 0; 1]%Z [0; 1; 1]%Z [1; 1; 0]%Z [0; 1; 1]%Z =
  Ok (range 3, [1; 0; 1]%Z, [1; 1; 0]%Z).
Proof.
  apply (sift_same_bases 3 [1; 0; 1]%Z [1; 1; 0]%Z [0; 1; 1]%Z);
    reflexivity.
Defined.

(** X15: when the two bases differ at every position, no position is kept and
    both keys are empty. *)
Theorem sift_no_agreement (n : nat) (a_bits a_basis b_bits b_basis : list Z) :
  length a_basis = n -> length b_basis = n ->
  length a_bits = n -> length b_bits = n ->
  (forall i, (i < n)%nat -> nth i a_basis 0%Z <> nth i b_basis 0%Z) ->
  sift a_bits a_basis b_bits b_basis = Ok ([], [], []).
Proof.
  intros HA HB Ha Hb Hdiff.
  rewrite (sift_filter n) by assumption.
  assert (Hnone : filter (same_basis a_basis b_basis) (range n) = []).
  { rewrite <- (filter_false (range n)).
    apply filter_ext_in. intros i Hi. apply in_seq in Hi.
    destruct (same_basis a_basis b_basis i) eqn:E; [|reflexivity].
    apply same_basis_iff in E. exfalso. apply (Hdiff i); [lia|exact E]. }
  now rewrite Hnone.
Qed.

Lemma sift_no_agreement_witness :
  sift [1; 0]%Z [0; 1]%Z [1; 1]%Z [1; 0]%Z = Ok ([], [], []).
Proof.
  apply (sift_no_agreement 2 [1; 0]%Z [0; 1]%Z [1; 1]%Z [1; 0]%Z);
    try reflexivity.
  intros i Hi. destruct i as [|[|i]]; [discriminate|discriminate|lia].
Defined.

(** ** The driver: outcome, transmissions, keys *)

Lemma agreements_le (A B : list Z) : (agreements A B <= length A)%nat.
Proof.
  revert B; induction A as [|a A IH]; intros [|b B]; simpl; try lia.
  specialize (IH B). destruct (Z.eqb a b); lia.
Qed.

Lemma decode_bits_small (bits : list Z) :
  Forall is_bit bits -> Forall (fun c => (c <= 255)%N) (decode_bits bits).
Proof.
  intros Hbits. unfold decode_bits. apply Forall_map, Forall_forall.
  intros b Hb. apply in_seq in Hb.
  assert (Hs : Forall is_bit (slice bits (b * 8) ((b + 1) * 8)))
    by (apply Forall_firstn, Forall_skipn, Hbits).
  pose proof (binary_value_bound _ 0%Z Hs ltac:(lia)) as Hv.
  rewrite slice_full_length in Hv by lia. simpl in Hv. lia.
Qed.

Lemma small_no_surrogate (s : str) :
  Forall (fun c => (c <= 255)%N) s -> no_surrogate s.
Proof.
  intros Hs. unfold no_surrogate. eapply Forall_impl; [|exact Hs].
  cbn beta. intros c Hc. lia.
Qed.

(** What [main_transmit] prints and how it ends, on zeros and ones. *)
Lemma main_transmit_lines (bit_msg a_key b_key : list Z) (w : World) :
  Forall is_bit bit_msg -> Forall is_bit a_key -> Forall is_bit b_key ->
  length a_key = length b_key ->
  exists lines,
    stdout (snd (main_transmit bit_msg a_key b_key w)) = stdout w ++ lines /\
    Forall encodable lines /\
    fst (main_transmit bit_msg a_key b_key w) =
      match a_key, bit_msg with
      | [], _ :: _ => Raise ZeroDivisionError
      | _, _ => Ok tt
      end.
Proof.
  intros Hm Ha Hb Hlen.
  destruct a_key as [|a a_key].
  - assert (b_key = []) as ->
      by (destruct b_key; [reflexivity|discriminate]).
    destruct bit_msg as [|m bit_msg].
    + exists [Text "No interference detected!"; EncryptedBits [];
              DecryptedBits []; ReceivedMessage []].
      split; [|split; [repeat constructor|reflexivity]].
      unfold main_transmit, bindP, lift, print. cbn.
      now rewrite <- !app_assoc.
    + rewrite main_transmit_no_key by discriminate.
      exists [Text "No interference detected!"].
      split; [reflexivity|]. split; [repeat constructor|reflexivity].
  - assert (Hbne : b_key <> []) by (intros ->; discriminate).
    rewrite main_transmit_keys; try assumption; try discriminate.
    eexists. split; [reflexivity|]. split.
    + repeat constructor.
      * unfold notice. now destruct (list_eq (a :: a_key) b_key).
      * apply small_no_surrogate, decode_bits_small.
        now repeat apply xor_stream_bits.
    + now destruct bit_msg.
Qed.

Section Outcomes.

Variable randint_out : nat -> nat -> bool.
Variable measured : nat -> cirq.Circuit -> Z -> nat -> bool.

(** X16: with [key_size >= 1], one repetition and a message without
    surrogate code points, [main] ends in one of two ways: it raises
    [ZeroDivisionError], exactly when the sifted key is empty and the
    message is not, or it returns; no other exception leaves it, whatever
    the draws and the measurements.  Every string it prints is free of
    surrogates, the received message having code points up to 255 only, so
    that the standard output can encode it. *)
Theorem main_outcome (msg : str) (key_size : nat) (eve : bool) (w : World) :
  (1 <= key_size)%nat ->
  no_surrogate msg ->
  exists a_key b_key w1 lines,
    main_exchange randint_out measured key_size eve 1 (after_prelude msg w) =
      (Ok (a_key, b_key), w1) /\
    fst (main randint_out measured msg key_size eve 1 w) =
      match a_key, msg with
      | [], _ :: _ => Raise ZeroDivisionError
      | _, _ => Ok tt
      end /\
    stdout (snd (main randint_out measured msg key_size eve 1 w)) =
      stdout w ++ lines /\
    Forall encodable lines.
Proof.
  intros Hsize Hmsg.
  destruct (main_exchange randint_out measured key_size eve 1
              (after_prelude msg w)) as [r w1] eqn:Hex.
  pose proof Hex as Hrun. rewrite main_exchange_run in Hrun by exact Hsize.
  injection Hrun as Hr Hw. subst r.
  destruct (fst (exchange_outcome randint_out measured key_size eve 1
                   (after_prelude msg w))) as [a_key b_key] eqn:Hkeys.
  destruct (exchange_keys _ _ _ _ _ _ _ _ _ Hex) as [Ha [Hb Hlen]].
  assert (Hout : exists E,
             stdout w1 = stdout (after_prelude msg w) ++ E /\
             Forall encodable E).
  { rewrite <- Hw. unfold exchange_outcome.
    destruct eve; cbn [snd stdout]; eexists;
      (split; [reflexivity|repeat constructor]). }
  destruct Hout as [E [HE HencE]].
  destruct (main_transmit_lines (encoded msg) a_key b_key w1
              (encoded_bits msg) Ha Hb Hlen) as [T [HT [HencT Hres]]].
  exists a_key, b_key, w1.
  exists ([InputMessage msg; BitMessage (encoded msg);
           Text "Initiating Quantum Key Exchange"] ++ E ++ T).
  split; [reflexivity|].
  rewrite main_stages. unfold bindP at 1 2. rewrite Hex. cbn [fst snd].
  split; [|split].
  - rewrite Hres. destruct a_key as [|a a_key]; [|reflexivity].
    destruct msg as [|c msg]; [reflexivity|].
    destruct (encoded (c :: msg)) eqn:Hen; [|reflexivity].
    exfalso. revert Hen. apply encoded_nonempty. discriminate.
  - rewrite HT, HE. unfold after_prelude. cbn [stdout].
    now rewrite <- !app_assoc.
  - apply Forall_app. split.
    + repeat constructor. exact Hmsg.
    + apply Forall_app. now split.
Qed.

(** X17: without eavesdropper the exchange draws three arrays and makes one
    transmission: the circuit built from the sender's bits and basis and the
    receiver's basis is run once, and the receiver's key is sifted from the
    bits measured on it. *)
Theorem single_transmission (msg : str) (key_size : nat) (w : World) :
  (1 <= key_size)%nat ->
  let k := rng_calls w in
  let r := length (sim_runs w) in
  let a_bits := drawn randint_out k key_size in
  let a_basis := drawn randint_out (S k) key_size in
  let b_basis := drawn randint_out (S (S k)) key_size in
  exists c a_key b_key w1,
    bb84_circuit a_bits a_basis b_basis = Ok c /\
    main_exchange randint_out measured key_size false 1
      (after_prelude msg w) = (Ok (a_key, b_key), w1) /\
    sim_runs w1 = sim_runs w ++ [(c, 1%Z)] /\
    rng_calls w1 = S (S (S k)) /\
    a_key = sifted a_basis b_basis a_bits /\
    b_key = sifted a_basis b_basis (received measured r c 1 key_size) /\
    sim_runs (snd (main randint_out measured msg key_size false 1 w)) =
    sim_runs w ++ [(c, 1%Z)].
Proof.
  intros Hsize k r a_bits a_basis b_basis.
  exists (bb84_ops a_bits a_basis b_basis). do 3 eexists.
  split.
  { apply bb84_circuit_ops; unfold a_bits, a_basis, b_basis;
      now rewrite !drawn_length. }
  split.
  { rewrite main_exchange_run by exact Hsize. unfold exchange_outcome.
    cbn [fst snd after_prelude rng_calls sim_runs stdout]. reflexivity. }
  cbn [rng_calls sim_runs].
  repeat (split; [reflexivity|]).
  rewrite main_stages. unfold bindP at 1.
  rewrite main_exchange_run by exact Hsize.
  rewrite main_transmit_sim_runs. reflexivity.
Qed.

(** X18: the exchange never raises, and the two keys it returns are sequences of
    zeros and ones of one length, which is the number of positions at which
    the sender's and the receiver's bases agree, at most [key_size]: the
    eavesdropper changes the receiver's key, never its length. *)
Theorem exchange_key_length (msg : str) (key_size : nat) (eve : bool)
  (w : World) :
  (1 <= key_size)%nat ->
  let a_basis := drawn randint_out (S (rng_calls w)) key_size in
  let b_basis := drawn randint_out (S (S (rng_calls w))) key_size in
  exists a_key b_key w1,
    main_exchange randint_out measured key_size eve 1 (after_prelude msg w) =
      (Ok (a_key, b_key), w1) /\
    Forall is_bit a_key /\ Forall is_bit b_key /\
    length a_key = agreements a_basis b_basis /\
    length b_key = agreements a_basis b_basis /\
    (length a_key <= key_size)%nat.
Proof.
  intros Hsize a_basis b_basis.
  assert (Hcount : forall bits,
             length (sifted a_basis b_basis bits) =
             agreements a_basis b_basis).
  { intros bits. unfold sifted. rewrite length_map.
    apply same_basis_count. unfold a_basis, b_basis.
    now rewrite !drawn_length. }
  assert (Hle : (agreements a_basis b_basis <= key_size)%nat).
  { pose proof (agreements_le a_basis b_basis) as H.
    unfold a_basis in H at 2. now rewrite drawn_length in H. }
  destruct eve; do 3 eexists;
    (split;
     [rewrite main_exchange_run by exact Hsize; unfold exchange_outcome;
      cbn [fst snd after_prelude rng_calls sim_runs stdout]; reflexivity|]);
    fold a_basis b_basis; rewrite !Hcount;
    (split; [apply sifted_bits, drawn_bits|]);
    (split; [apply sifted_bits, received_bits|]);
    auto.
Qed.

(** X19: an eavesdropper on a noiseless channel goes unnoticed when the
    eavesdropper's basis equals the sender's wherever the sender's and the
    receiver's agree: the two sifted keys are then equal. *)
Theorem eavesdropper_unnoticed (msg : str) (key_size : nat) (w : World) :
  (1 <= key_size)%nat ->
  noiseless measured ->
  let a_basis := drawn randint_out (S (rng_calls w)) key_size in
  let b_basis := drawn randint_out (S (S (rng_calls w))) key_size in
  let e_basis := drawn randint_out (S (S (S (rng_calls w)))) key_size in
  (forall i, (i < key_size)%nat ->
     nth i b_basis 0%Z = nth i a_basis 0%Z ->
     nth i e_basis 0%Z = nth i a_basis 0%Z) ->
  exists key w1,
    main_exchange randint_out measured key_size true 1 (after_prelude msg w) =
      (Ok (key, key), w1).
Proof.
  intros Hsize Hn a_basis b_basis e_basis Heve.
  set (a_bits := drawn randint_out (rng_calls w) key_size).
  set (c1 := bb84_ops a_bits a_basis e_basis).
  set (eve_bits := received measured (length (sim_runs w)) c1 1 key_size).
  set (c2 := bb84_ops eve_bits e_basis b_basis).
  set (b_bits := received measured (S (length (sim_runs w))) c2 1 key_size).
  assert (Hkeys : sifted a_basis b_basis b_bits =
                  sifted a_basis b_basis a_bits).
  { unfold sifted. apply map_ext_in. intros i Hi.
    apply filter_In in Hi. destruct Hi as [Hi Hsame].
    apply in_seq in Hi. apply same_basis_iff in Hsame.
    unfold a_basis in Hi. rewrite drawn_length in Hi.
    assert (He : nth i e_basis 0%Z = nth i a_basis 0%Z)
      by (apply Heve; [lia|now symmetry]).
    assert (H1 : nth i eve_bits 0%Z = nth i a_bits 0%Z).
    { unfold eve_bits. rewrite received_nth by lia.
      apply (Hn _ a_bits a_basis e_basis);
        unfold a_bits, a_basis, e_basis; rewrite ?drawn_length;
        try reflexivity; try lia.
      - apply drawn_bits.
      - apply bb84_circuit_ops; now rewrite !drawn_length.
      - exact He. }
    unfold b_bits. rewrite received_nth by lia. rewrite <- H1.
    apply (Hn _ eve_bits e_basis b_basis);
      unfold eve_bits, e_basis, b_basis;
      rewrite ?drawn_length, ?received_length; try reflexivity; try lia.
    - apply received_bits.
    - apply bb84_circuit_ops;
        now rewrite ?drawn_length, ?received_length.
    - fold b_basis e_basis. congruence. }
  exists (sifted a_basis b_basis a_bits). eexists.
  rewrite main_exchange_run by exact Hsize. unfold exchange_outcome.
  cbn [fst snd after_prelude rng_calls sim_runs stdout].
  fold a_bits a_basis b_basis e_basis c1 eve_bits c2 b_bits.
  rewrite Hkeys. reflexivity.
Qed.

(** X20: whenever the two sifted keys are one non-empty key, with or without
    eavesdropper, [main] reports no interference and the message it prints
    as received is the input message, for every message of code points up
    to 255. *)
Theorem matching_keys_decrypt (msg : str) (key_size : nat) (eve : bool)
  (repetitions : Z) (w w1 : World) (key : list Z) :
  main_exchange randint_out measured key_size eve repetitions
    (after_prelude msg w) = (Ok (key, key), w1) ->
  key <> [] ->
  Forall (fun c => (c <= 255)%N) msg ->
  exists bit_msg encrypted,
    string_to_bits msg = Ok bit_msg /\
    xor_bits bit_msg key = Ok encrypted /\
    xor_bits encrypted key = Ok bit_msg /\
    main randint_out measured msg key_size eve repetitions w =
    (Ok tt,
     mkWorld (rng_calls w1) (sim_runs w1)
       (stdout w1 ++
        [Text "No interference detected!"; EncryptedBits encrypted;
         DecryptedBits bit_msg; ReceivedMessage msg])).
Proof.
  intros Hex Hkey Hmsg.
  destruct (exchange_keys _ _ _ _ _ _ _ _ _ Hex) as [Hb [_ _]].
  exists (encoded msg), (xor_stream (encoded msg) key).
  split; [apply string_to_bits_groups|].
  split; [now apply xor_bits_stream|].
  split; [rewrite xor_bits_stream by exact Hkey;
          now rewrite xor_stream_involutive|].
  rewrite main_stages. unfold bindP at 1. rewrite Hex. cbn [fst snd].
  rewrite main_transmit_keys; try assumption; [|apply encoded_bits].
  unfold notice.
  rewrite (proj2 (list_eq_spec key key) eq_refl).
  rewrite xor_stream_involutive.
  unfold encoded. rewrite decode_groups by exact Hmsg. reflexivity.
Qed.

End Outcomes.

Lemma main_outcome_witness :
  (1 <= 1)%nat /\
  no_surrogate (lit "hi") /\
  exists a_key b_key w1 lines,
    main_exchange mismatch_randint demo_simulator 1 false 1
      (after_prelude (lit "hi") world0) = (Ok (a_key, b_key), w1) /\
    fst (main mismatch_randint demo_simulator (lit "hi") 1 false 1 world0) =
      match a_key, lit "hi" with
      | [], _ :: _ => Raise ZeroDivisionError
      | _, _ => Ok tt
      end /\
    stdout (snd (main mismatch_randint demo_simulator (lit "hi") 1 false 1
                   world0)) = stdout world0 ++ lines /\
    Forall encodable lines.
Proof.
  assert (H : (1 <= 1)%nat) by lia.
  assert (Hm : no_surrogate (lit "hi")).
  { repeat constructor; left; reflexivity. }
  split; [exact H|]. split; [exact Hm|].
  exact (main_outcome mismatch_randint demo_simulator (lit "hi") 1 false
           world0 H Hm).
Defined.

Lemma single_transmission_witness :
  (1 <= 2)%nat /\
  exists c a_key b_key w1,
    bb84_circuit (drawn demo_randint 0 2) (drawn demo_randint 1 2)
      (drawn demo_randint 2 2) = Ok c /\
    main_exchange demo_randint demo_simulator 2 false 1
      (after_prelude (lit "Hi") world0) = (Ok (a_key, b_key), w1) /\
    sim_runs w1 = [(c, 1%Z)] /\
    rng_calls w1 = 3%nat /\
    a_key = sifted (drawn demo_randint 1 2) (drawn demo_randint 2 2)
              (drawn demo_randint 0 2) /\
    b_key = sifted (drawn demo_randint 1 2) (drawn demo_randint 2 2)
              (received demo_simulator 0 c 1 2) /\
    sim_runs (snd (main demo_randint demo_simulator (lit "Hi") 2 false 1
                     world0)) = [(c, 1%Z)].
Proof.
  assert (H : (1 <= 2)%nat) by lia.
  split; [exact H|].
  exact (single_transmission demo_randint demo_simulator (lit "Hi") 2
           world0 H).
Defined.

Lemma exchange_key_length_witness :
  (1 <= 2)%nat /\
  exists a_key b_key w1,
    main_exchange demo_randint demo_simulator 2 true 1
      (after_prelude (lit "Hi") world0) = (Ok (a_key, b_key), w1) /\
    Forall is_bit a_key /\ Forall is_bit b_key /\
    length a_key =
      agreements (drawn demo_randint 1 2) (drawn demo_randint 2 2) /\
    length b_key =
      agreements (drawn demo_randint 1 2) (drawn demo_randint 2 2) /\
    (length a_key <= 2)%nat.
Proof.
  assert (H : (1 <= 2)%nat) by lia.
  split; [exact H|].
  exact (exchange_key_length demo_randint demo_simulator (lit "Hi") 2 true
           world0 H).
Defined.

Lemma eavesdropper_unnoticed_witness :
  (1 <= 2)%nat /\
  noiseless demo_simulator /\
  (forall i, (i < 2)%nat ->
     nth i (drawn matched_randint 2 2) 0%Z =
     nth i (drawn matched_randint 1 2) 0%Z ->
     nth i (drawn matched_randint 3 2) 0%Z =
     nth i (drawn matched_randint 1 2) 0%Z) /\
  exists key w1,
    main_exchange matched_randint demo_simulator 2 true 1
      (after_prelude (lit "Hi") world0) = (Ok (key, key), w1).
Proof.
  assert (H : (1 <= 2)%nat) by lia.
  assert (Hn : noiseless demo_simulator)
    by apply noiseless_simulator_noiseless.
  assert (He : forall i, (i < 2)%nat ->
             nth i (drawn matched_randint 2 2) 0%Z =
             nth i (drawn matched_randint 1 2) 0%Z ->
             nth i (drawn matched_randint 3 2) 0%Z =
             nth i (drawn matched_randint 1 2) 0%Z).
  { intros i Hi Hsame. destruct i as [|[|i]].
    - vm_compute in Hsame. discriminate Hsame.
    - reflexivity.
    - lia. }
  split; [exact H|]. split; [exact Hn|]. split; [exact He|].
  exact (eavesdropper_unnoticed matched_randint demo_simulator (lit "Hi") 2
           world0 H Hn He).
Defined.

Lemma matching_keys_decrypt_witness :
  main_exchange matched_randint demo_simulator 2 true 1
    (after_prelude (lit "Hi") world0) =
  (Ok ([0%Z], [0%Z]),
   snd (main_exchange matched_randint demo_simulator 2 true 1
          (after_prelude (lit "Hi") world0))) /\
  [0%Z] <> [] /\
  Forall (fun c => (c <= 255)%N) (lit "Hi") /\
  exists bit_msg encrypted,
    string_to_bits (lit "Hi") = Ok bit_msg /\
    xor_bits bit_msg [0%Z] = Ok encrypted /\
    xor_bits encrypted [0%Z] = Ok bit_msg /\
    main matched_randint demo_simulator (lit "Hi") 2 true 1 world0 =
    (Ok tt,
     mkWorld 4
       (sim_runs
          (snd (main_exchange matched_randint demo_simulator 2 true 1
                  (after_prelude (lit "Hi") world0))))
       (stdout
          (snd (main_exchange matched_randint demo_simulator 2 true 1
                  (after_prelude (lit "Hi") world0))) ++
        [Text "No interference detected!"; EncryptedBits encrypted;
         DecryptedBits bit_msg; ReceivedMessage (lit "Hi")])).
Proof.
  assert (Hex : main_exchange matched_randint demo_simulator 2 true 1
                  (after_prelude (lit "Hi") world0) =
                (Ok ([0%Z], [0%Z]),
                 snd (main_exchange matched_randint demo_simulator 2 true 1
                        (after_prelude (lit "Hi") world0))))
    by reflexivity.
  assert (Hk : [0%Z] <> []) by discriminate.
  assert (Hm : Forall (fun c => (c <= 255)%N) (lit "Hi"))
    by (repeat constructor; vm_compute; discriminate).
  split; [exact Hex|]. split; [exact Hk|]. split; [exact Hm|].
  exact (matching_keys_decrypt matched_randint demo_simulator (lit "Hi") 2
           true 1 world0 _ [0%Z] Hex Hk Hm).
Defined.

(** ** Ciphertext and the decoder *)

(** X5: the cipher keeps zeros and ones: a 0/1 input under a non-empty 0/1 key
    gives a 0/1 output of the same length, which the decoder accepts. *)
Theorem xor_bits_keeps_bits (bits key : list Z) :
  Forall is_bit bits -> Forall is_bit key -> key <> [] ->
  exists out s,
    xor_bits bits key = Ok out /\
    Forall is_bit out /\
    length out = length bits /\
    bits_to_string out = Ok s /\
    length s = (length bits / 8)%nat.
Proof.
  intros Hb Hk Hne.
  exists (xor_stream bits key), (decode_bits (xor_stream bits key)).
  pose proof (xor_stream_bits bits key Hb Hk) as Hout.
  split; [now apply xor_bits_stream|].
  split; [exact Hout|].
  split; [apply xor_stream_length|].
  split; [now apply bits_to_string_decode|].
  now rewrite decode_bits_length, xor_stream_length.
Qed.

Lemma xor_bits_keeps_bits_witness :
  Forall is_bit [0; 1; 0; 0; 1; 0; 0; 0; 1]%Z /\
  Forall is_bit [1; 1; 0]%Z /\
  [1; 1; 0]%Z <> [] /\
  exists out s,
    xor_bits [0; 1; 0; 0; 1; 0; 0; 0; 1]%Z [1; 1; 0]%Z = Ok out /\
    Forall is_bit out /\
    length out = length [0; 1; 0; 0; 1; 0; 0; 0; 1]%Z /\
    bits_to_string out = Ok s /\
    length s = (length [0; 1; 0; 0; 1; 0; 0; 0; 1]%Z / 8)%nat.
Proof.
  assert (Hb : Forall is_bit [0; 1; 0; 0; 1; 0; 0; 0; 1]%Z)
    by (repeat constructor; (now left) || (now right)).
  assert (Hk : Forall is_bit [1; 1; 0]%Z)
    by (repeat constructor; (now left) || (now right)).
  assert (Hne : [1; 1; 0]%Z <> []) by discriminate.
  split; [exact Hb|]. split; [exact Hk|]. split; [exact Hne|].
  exact (xor_bits_keeps_bits _ _ Hb Hk Hne).
Defined.
